(** * Revision matching of WPT test runs against the commit history

    Shallow embedding of [migration/run/migrate_runs.go]: the byte-wise
    ordering of commit hashes ([byHash]), the suffix search [findHash], the
    mirror set-up [getGit] and the concurrent resolver [getCommitForRuns],
    followed by the properties the specification states about them. *)

From Equations Require Import Equations.
From Equations.Prop Require Import Logic.
From stdpp Require Import base list strings sorting.
From Stdlib Require Import ZArith Lia.
From Stdlib.Strings Require Import Byte Ascii.

Local Open Scope Z_scope.

(** ** Bytes and [bytes.Compare] *)

Module bytes.

(** [bytes.Compare(a, b)]: lexicographic comparison of two byte slices,
    each byte taken as an unsigned value; the result is 0, -1 or +1. *)
Fixpoint Compare (a b : list byte) : Z :=
  match a, b with
  | [], [] => 0
  | [], _ :: _ => -1
  | _ :: _, [] => 1
  | x :: a', y :: b' =>
      match N.compare (Byte.to_N x) (Byte.to_N y) with
      | Lt => -1
      | Gt => 1
      | Eq => Compare a' b'
      end
  end.

End bytes.

(** [a <= b] under unsigned byte-wise lexicographic comparison. *)
Definition bytes_le (a b : list byte) : Prop := bytes.Compare a b ≠ 1.

Global Instance bytes_le_dec a b : Decision (bytes_le a b).
Proof. unfold bytes_le. apply _. Defined.

(** ** Commits and the [byHash] ordering *)

(** [object.Commit]: the program reads only [Hash], a [plumbing.Hash], that
    is a [[20]byte] array.  [Message] stands for the fields it never reads. *)
Record Commit := { Hash : list byte; Message : string }.

Global Instance Commit_inhabited : Inhabited Commit :=
  populate {| Hash := []; Message := "" |}.

Global Instance byte_eq_dec : EqDecision byte := Byte.byte_eq_dec.

Global Instance Commit_eq_dec : EqDecision Commit.
Proof. solve_decision. Defined.

(** The length every [plumbing.Hash] has by its type. *)
Definition wf_commit (c : Commit) : Prop := length (Hash c) = 20%nat.

(** [sort.Interface]. *)
Class sort_Interface (T : Type) := {
  Len : T → nat;
  Less : T → nat → nat → bool;
  Swap : T → nat → nat → T
}.

(** [type byHash []*object.Commit] *)
Definition byHash := list Commit.

Global Instance byHash_Interface : sort_Interface byHash := {|
  Len c := length c;
  (* c[i], c[j] = c[j], c[i] *)
  Swap c i j := <[j := c !!! i]> (<[i := c !!! j]> c);
  (* bytes.Compare(c[i].Hash[0:], c[j].Hash[0:]) == -1 *)
  Less c i j := bytes.Compare (Hash (c !!! i)) (Hash (c !!! j)) =? -1
|}.

(** ** What [sort.Sort] asks of a [sort.Interface], and what it gives *)

(** The position [k] after the elements at [i] and [j] are exchanged. *)
Definition transpose (i j k : nat) : nat :=
  if decide (k = i) then j else if decide (k = j) then i else k.

(** [swaps_to data data']: calls of [Swap] on positions below [Len] lead from
    [data] to [data']. *)
Inductive swaps_to {T} `{sort_Interface T} : T → T → Prop :=
  | swaps_done data : swaps_to data data
  | swaps_step data i j data' :
      (i < Len data)%nat → (j < Len data)%nat →
      swaps_to (Swap data i j) data' →
      swaps_to data data'.

(** What the documentation of [sort.Interface] asks of an implementation, in
    every state the swaps of a sort can lead to: [Swap] exchanges the elements
    at its two positions, as [Less] sees them, and keeps [Len]; [Less] is
    irreflexive and describes a transitive ordering (if [Less(i, j)] and
    [Less(j, k)] are both true, so is [Less(i, k)]; if both are false, so is
    [Less(i, k)]). *)
Record lawful {T} `{sort_Interface T} (data : T) : Prop := {
  lawful_Len : ∀ d i j,
    swaps_to data d → (i < Len d)%nat → (j < Len d)%nat →
    Len (Swap d i j) = Len d;
  lawful_Swap : ∀ d i j a b,
    swaps_to data d → (i < Len d)%nat → (j < Len d)%nat →
    (a < Len d)%nat → (b < Len d)%nat →
    Less (Swap d i j) a b = Less d (transpose i j a) (transpose i j b);
  lawful_irreflexive : ∀ d i,
    swaps_to data d → (i < Len d)%nat → Less d i i = false;
  lawful_transitive : ∀ d i j k,
    swaps_to data d → (i < Len d)%nat → (j < Len d)%nat → (k < Len d)%nat →
    Less d i j = true → Less d j k = true → Less d i k = true;
  lawful_incomparable : ∀ d i j k,
    swaps_to data d → (i < Len d)%nat → (j < Len d)%nat → (k < Len d)%nat →
    Less d i j = false → Less d j k = false → Less d i k = false
}.

(** What [sort.Sort] gives on such an implementation: it only swaps, and
    leaves the data in ascending order as determined by [Less]. *)
Definition sorts (sort_Sort : ∀ T, sort_Interface T → T → T) : Prop :=
  ∀ T (I : sort_Interface T) (data : T),
    lawful data →
    swaps_to data (sort_Sort T I data) ∧
    ∀ i j, (i < j < Len (sort_Sort T I data))%nat →
           Less (sort_Sort T I data) j i = false.

(** The insertion sort of package [sort], through the interface alone:
    [for j := i; j > 0 && data.Less(j, j-1); j-- { data.Swap(j, j-1) }] *)
Fixpoint sift {T} `{sort_Interface T} (data : T) (j : nat) : T :=
  match j with
  | O => data
  | S j' => if Less data (S j') j' then sift (Swap data (S j') j') j' else data
  end.

(** [for i := 1; i < n; i++ { ... }], with [count] rounds left. *)
Fixpoint sift_from {T} `{sort_Interface T} (data : T) (i count : nat) : T :=
  match count with
  | O => data
  | S count' => sift_from (sift data i) (S i) count'
  end.

Definition insertionSort (T : Type) (I : sort_Interface T) (data : T) : T :=
  sift_from data 1 (Len data - 1).

(** Positions below [n] are in ascending order. *)
Definition ascending_below {T} `{sort_Interface T} (d : T) (n : nat) : Prop :=
  ∀ a b, (a < b)%nat → (b < n)%nat → Less d b a = false.

(** Positions up to [k] are in ascending order, but for the element at [j]
    and those before it: the state of the inner loop of the insertion sort. *)
Definition ascending_but {T} `{sort_Interface T} (d : T) (j k : nat) : Prop :=
  ∀ a b, (a < b)%nat → (b ≤ k)%nat → b ≠ j → Less d b a = false.

(** ** [findHash] *)

(** [h[len(h)-5:]], the trailing five bytes of a hash; a [plumbing.Hash] has
    20 bytes, so the slice bound is never negative. *)
Definition last5 (h : list byte) : list byte := drop (length h - 5)%nat h.

Equations? findHash (commits : list Commit) (shortHash : list byte) : Z
  by wf (length commits) lt :=
  findHash commits shortHash with inspect (length commits =? 0)%nat := {
    | exist _ true _ => -1
    | exist _ false Hlen =>
        let mid := (length commits / 2)%nat in
        let commitHash := last5 (Hash (commits !!! mid)) in
        let cmp := bytes.Compare commitHash shortHash in
        if cmp =? 1 then
          findHash (take mid commits) shortHash
        else if cmp =? -1 then
          findHash (drop (mid + 1)%nat commits) shortHash + Z.of_nat mid + 1
        else
          Z.of_nat mid }.
Proof.
  all: apply Nat.eqb_neq in Hlen.
  - rewrite length_take. pose proof (Nat.div_lt (length commits) 2). lia.
  - rewrite length_drop. lia.
Qed.

(** The recursive calls the body of [findHash] makes: [findHash_call s callee
    caller] when running on [caller] invokes [findHash] on [callee]. *)
Inductive findHash_call (shortHash : list byte) : list Commit → list Commit → Prop :=
  | call_lower commits :
      length commits ≠ 0%nat →
      bytes.Compare (last5 (Hash (commits !!! (length commits / 2)%nat))) shortHash = 1 →
      findHash_call shortHash (take (length commits / 2)%nat commits) commits
  | call_upper commits :
      length commits ≠ 0%nat →
      bytes.Compare (last5 (Hash (commits !!! (length commits / 2)%nat))) shortHash = -1 →
      findHash_call shortHash (drop (length commits / 2 + 1)%nat commits) commits.

(** [commits[idx]]: Go panics when the index is out of range. *)
Definition index (commits : list Commit) (idx : Z) : option Commit :=
  if idx <? 0 then None else commits !! Z.to_nat idx.

(** ** Orders on commits *)

(** By the trailing five bytes of the hash, as [findHash] compares. *)
Definition suffix_le (a b : Commit) : Prop :=
  bytes_le (last5 (Hash a)) (last5 (Hash b)).

Global Instance suffix_le_dec a b : Decision (suffix_le a b).
Proof. unfold suffix_le. apply _. Defined.

(** By the full hash, as [byHash] compares. *)
Definition hash_le (a b : Commit) : Prop := bytes_le (Hash a) (Hash b).

Global Instance hash_le_dec a b : Decision (hash_le a b).
Proof. unfold hash_le. apply _. Defined.

(** A sort that keeps what [sort.Sort] promises, to run the program with. *)
Definition merge_sort_byHash (data : byHash) : byHash := merge_sort hash_le data.

(** ** Errors and the ways the process ends *)

(** The [error] values the program tells apart, and [other_error] for every
    other one (transport, file system, corrupt object). *)
Inductive error :=
  | io_EOF
  | git_ErrRepositoryNotExists
  | git_NoErrAlreadyUpToDate
  | hex_ErrLength
  | hex_InvalidByteError (b : ascii)
  | other_error (msg : string).

Global Instance error_eq_dec : EqDecision error.
Proof. solve_decision. Defined.

(** What [log.Fatal] and [log.Fatalf] print before [os.Exit(1)]. *)
Inductive fatal :=
  | log_Fatal (err : error)
  (* log.Fatalf("Unexpected hash length: %d bytes", n) *)
  | log_Fatalf_hash_length (n : nat).

Inductive panic :=
  | nil_pointer_dereference
  | index_out_of_range.

(** A computation returns, exits through [log.Fatal] or panics. *)
Inductive outcome (A : Type) :=
  | Done (a : A)
  | Fatal (f : fatal)
  | Panic (p : panic).
Arguments Done {A} a.
Arguments Fatal {A} f.
Arguments Panic {A} p.

Global Instance outcome_ret : MRet outcome := @Done.
Global Instance outcome_bind : MBind outcome := λ A B k m,
  match m with
  | Done a => k a
  | Fatal f => Fatal f
  | Panic p => Panic p
  end.

(** ** [hex.DecodeString] *)

Module hex.

(** [fromHexChar]: the value of one hexadecimal digit. *)
Definition fromHexChar (c : ascii) : option N :=
  let n := N_of_ascii c in
  if (48 <=? n)%N && (n <=? 57)%N then Some (n - 48)%N
  else if (97 <=? n)%N && (n <=? 102)%N then Some (n - 97 + 10)%N
  else if (65 <=? n)%N && (n <=? 70)%N then Some (n - 65 + 10)%N
  else None.

(** [(a << 4) | b] as a byte. *)
Definition pack (a b : N) : byte :=
  byte_of_ascii (ascii_of_N (N.lor (N.shiftl a 4) b)).

(** [hex.DecodeString(s)]: two digits per byte; an invalid digit is reported
    before an odd length. *)
Fixpoint DecodeString (s : string) : list byte + error :=
  match s with
  | EmptyString => inl []
  | String p EmptyString =>
      match fromHexChar p with
      | None => inr (hex_InvalidByteError p)
      | Some _ => inr hex_ErrLength
      end
  | String p (String q rest) =>
      match fromHexChar p with
      | None => inr (hex_InvalidByteError p)
      | Some a =>
          match fromHexChar q with
          | None => inr (hex_InvalidByteError q)
          | Some b =>
              match DecodeString rest with
              | inl bs => inl (pack a b :: bs)
              | inr err => inr err
              end
          end
      end
  end.

Definition is_hex (c : ascii) : Prop := is_Some (fromHexChar c).

End hex.

(** ** The repository mirror: [getGit] *)

(** [billy.Filesystem] and [storage.Storer], named by the path they are
    rooted at; [git.CloneOptions] with the one field the program sets. *)
Definition Filesystem := string.
Definition Storer := string.
Record CloneOptions := { URL : string }.

(** [object.CommitIter]: [Next] hands out the pending commits one by one, then
    a nil commit together with [iter_end]. *)
Record CommitIter := { iter_pending : list Commit; iter_end : error }.

(** [*git.Repository]; [CommitObjects] is the answer of
    [repo.CommitObjects()]. *)
Record Repository := { CommitObjects : CommitIter + error }.

Record Worktree := { wt_root : Filesystem }.

(** The answers of go-git, the file system and the network to the calls
    [getGit] makes. *)
Record git_Host := {
  git_Open : Storer → Filesystem → Repository + error;
  git_Clone : Storer → Filesystem → CloneOptions → Repository + error;
  repo_Worktree : Repository → Worktree + error;
  (* nil is None *)
  wt_Pull : Worktree → option error
}.

(** The calls made, in order. *)
Inductive git_call :=
  | call_Open (s : Storer) (fs : Filesystem)
  | call_Clone (s : Storer) (fs : Filesystem) (o : CloneOptions)
  | call_Worktree (repo : Repository)
  | call_Pull (wt : Worktree).

(** [getGit]: the calls it made and how it ended; a nil [*git.Repository] is
    [None]. *)
Definition getGit (g : git_Host) (s : Storer) (fs : Filesystem) (o : CloneOptions)
  : list git_call * outcome (option Repository) :=
  match git_Open g s fs with
  | inr err =>
      if decide (err = git_ErrRepositoryNotExists) then
        match git_Clone g s fs o with
        | inr err => ([call_Open s fs; call_Clone s fs o], Fatal (log_Fatal err))
        | inl repo => ([call_Open s fs; call_Clone s fs o], Done None)
        end
      else ([call_Open s fs], Fatal (log_Fatal err))
  | inl repo =>
      match repo_Worktree g repo with
      | inr err => ([call_Open s fs; call_Worktree repo], Fatal (log_Fatal err))
      | inl wt =>
          let calls := [call_Open s fs; call_Worktree repo; call_Pull wt] in
          match wt_Pull g wt with
          | Some err =>
              if decide (err = git_NoErrAlreadyUpToDate) then (calls, Done (Some repo))
              else (calls, Fatal (log_Fatal err))
          | None => (calls, Done (Some repo))
          end
      end
  end.

(** ** The resolver: [getCommitForRuns] *)

(** [shared.TestRun], with the one field the program reads. *)
Record TestRun := { Revision : string }.

(** A revision that decodes to five bytes. *)
Definition well_formed (run : TestRun) : Prop :=
  match hex.DecodeString (Revision run) with
  | inl runHash => length runHash = 5%nat
  | inr _ => False
  end.

Global Instance well_formed_dec run : Decision (well_formed run).
Proof. unfold well_formed. destruct (hex.DecodeString (Revision run)); apply _. Defined.

(** What resolving one record against the index yields: the commit at the
    position [findHash] returns, or nothing. *)
Definition resolve (commits : list Commit) (run : TestRun) : option Commit :=
  match hex.DecodeString (Revision run) with
  | inl runHash =>
      let idx := findHash commits runHash in
      if idx =? -1 then None else index commits idx
  | inr _ => None
  end.

(** The result slots and the lines logged so far. *)
Record matching := { found : list (option Commit); logged : list string }.

(** The body of [go func(i int, run shared.TestRun)]. *)
Definition match_run (commits : list Commit) (i : nat) (run : TestRun) (st : matching)
  : outcome matching :=
  match hex.DecodeString (Revision run) with
  | inr err => Fatal (log_Fatal err)
  | inl runHash =>
      if decide (length runHash ≠ 5%nat) then
        Fatal (log_Fatalf_hash_length (length runHash))
      else
        let idx := findHash commits runHash in
        if idx =? -1 then
          Done {| found := found st;
                  logged := logged st ++ ["Failed to find revision for " +:+ Revision run] |}
        else
          match index commits idx with
          | None => Panic index_out_of_range
          | Some c =>
              if decide (i < length (found st))%nat then
                Done {| found := <[i := Some c]> (found st);
                        logged := logged st ++ ["Found commit for " +:+ Revision run] |}
              else Panic index_out_of_range
          end
  end.

(** The goroutines share nothing but [found], where each writes its own slot,
    and the log, where each writes one line; an execution is therefore given by
    the order in which the goroutines run, and [log.Fatal] in one of them ends
    the process. *)
Fixpoint run_goroutines (commits : list Commit) (order : list (nat * TestRun))
    (st : matching) : outcome matching :=
  match order with
  | [] => Done st
  | (i, run) :: order' =>
      st' ← match_run commits i run st;
      run_goroutines commits order' st'
  end.

(** [for i, run := range runs { go func(i, run) ... }] *)
Definition spawned (runs : list TestRun) : list (nat * TestRun) := imap pair runs.

(** An order in which the spawned goroutines may run. *)
Definition schedule (runs : list TestRun) (order : list (nat * TestRun)) : Prop :=
  order ≡ₚ spawned runs.

(** The loop over [iter.Next()]: the commits appended, and the error that came
    with the nil commit. *)
Fixpoint gather (pending : list Commit) (final : error) (commits : list Commit)
  : list Commit * error :=
  match pending with
  | [] => (commits, final)
  | commit :: pending' => gather pending' final (commits ++ [commit])
  end.

Definition gatherCommits (repo : Repository) : outcome (list Commit) :=
  match CommitObjects repo with
  | inr err => Fatal (log_Fatal err)
  | inl iter =>
      let '(commits, err) := gather (iter_pending iter) (iter_end iter) [] in
      if decide (err = io_EOF) then Done commits else Fatal (log_Fatal err)
  end.

(** The slots, [make([]*object.Commit, len(runs), len(runs))], and the log as
    the goroutines start. *)
Definition start (runs : list TestRun) : matching :=
  {| found := replicate (length runs) None;
     logged := ["Gathering commits"; "Sorting commits"; "Matching commits"] |}.

Section CommitIndex.

(** [sort.Sort] on a [byHash]. *)
Variable sort_Sort : byHash → byHash.

(** The first half of [getCommitForRuns]: gather the commits and sort them. *)
Definition buildIndex (repo : Repository) : outcome (list Commit) :=
  commits ← gatherCommits repo;
  Done (sort_Sort commits).

(** [getCommitForRuns]: the slots and the log once all goroutines have run in
    the given order.  [repo.CommitObjects()] on a nil repository dereferences
    it. *)
Definition getCommitForRuns (repo : option Repository) (runs : list TestRun)
    (order : list (nat * TestRun)) : outcome matching :=
  match repo with
  | None => Panic nil_pointer_dereference
  | Some repo =>
      commits ← buildIndex repo;
      run_goroutines commits order (start runs)
  end.

(** [main], once the test runs have been fetched. *)
Definition main (g : git_Host) (wptGitPath : string) (runs : list TestRun)
    (order : list (nat * TestRun)) : outcome matching :=
  let fs := wptGitPath in
  let store := wptGitPath +:+ "/.git" in
  repo ← (getGit g store fs
            {| URL := "https://github.com/w3c/web-platform-tests.git" |}).2;
  getCommitForRuns repo runs order.

End CommitIndex.

(** ** What the goroutines report *)

(** The line a goroutine logs for a record that decodes to five bytes. *)
Definition report_line (commits : list Commit) (run : TestRun) : string :=
  match hex.DecodeString (Revision run) with
  | inl runHash =>
      if findHash commits runHash =? -1
      then "Failed to find revision for " +:+ Revision run
      else "Found commit for " +:+ Revision run
  | inr _ => ""
  end.

(** What a goroutine hands to [log.Fatal] or [log.Fatalf] for a record that
    does not decode to five bytes. *)
Definition abort_cause (run : TestRun) : fatal :=
  match hex.DecodeString (Revision run) with
  | inr err => log_Fatal err
  | inl runHash => log_Fatalf_hash_length (length runHash)
  end.

(** The number of commits whose trailing five bytes compare below
    [shortHash]. *)
Definition suffixes_below (shortHash : list byte) (commits : list Commit) : nat :=
  length (filter (λ c, bytes.Compare (last5 (Hash c)) shortHash = -1) commits).

(** ** The test runs: [getRuns] *)

(** What [it.Next] answers once the entities are exhausted:
    [iterator.Done], or an error. *)
Inductive next_end :=
  | iterator_Done
  | next_failed (err : error).

(** [*datastore.Iterator]: [Next] fills in the pending entities one by one,
    with a nil error, then answers [it_end]. *)
Record datastore_Iterator := { it_pending : list TestRun; it_end : next_end }.

(** [*datastore.Client]; [client_Run] is the iterator of the query for
    ["TestRun"] ordered by ["-CreatedAt"]. *)
Record datastore_Client := { client_Run : datastore_Iterator }.

(** The loop of [getRuns] over [it.Next(&testRun)]. *)
Fixpoint collect (pending : list TestRun) (final : next_end) (testRuns : list TestRun)
  : outcome (list TestRun) :=
  match pending with
  | [] =>
      match final with
      | iterator_Done => Done testRuns
      | next_failed err => Fatal (log_Fatal err)
      end
  | testRun :: pending' => collect pending' final (testRuns ++ [testRun])
  end.

Definition getRuns (client : datastore_Client) : outcome (list TestRun) :=
  let it := client_Run client in
  collect (it_pending it) (it_end it) [].

(** ** [main] from its first line *)

(** The answers to the calls [main] makes itself. *)
Record Process := {
  (* nil is None *)
  os_MkdirAll : option error;
  datastore_NewClient : datastore_Client + error;
  (* the error of filesystem.NewStorage; nil is None *)
  filesystem_NewStorage : option error
}.

(** [wg.Wait()] on two goroutines that may each end the process: when both
    would, the one that runs first does. *)
Definition join {A B} (first_a : bool) (a : outcome A) (b : outcome B)
  : outcome (A * B) :=
  if first_a then x ← a; y ← b; Done (x, y)
  else y ← b; x ← a; Done (x, y).

(** The whole of [main]; [sched] gives the order in which the goroutines of
    [getCommitForRuns] run, and the log starts with the two lines of [main]. *)
Definition main_all (sort_Sort : byHash → byHash) (p : Process) (g : git_Host)
    (wptGitPath wptDataPath : string) (runs_first : bool)
    (sched : list TestRun → list (nat * TestRun)) : outcome matching :=
  match os_MkdirAll p with
  | Some err => Fatal (log_Fatal err)
  | None =>
      match datastore_NewClient p with
      | inr err => Fatal (log_Fatal err)
      | inl datastoreClient =>
          '(runs, repo) ← join runs_first
            (getRuns datastoreClient)
            (match filesystem_NewStorage p with
             | Some err => Fatal (log_Fatal err)
             | None =>
                 (getGit g (wptGitPath +:+ "/.git") wptGitPath
                    {| URL := "https://github.com/w3c/web-platform-tests.git" |}).2
             end);
          res ← getCommitForRuns sort_Sort repo runs (sched runs);
          Done {| found := found res;
                  logged :=
                    ["Loading and storing WPT checkout in " +:+ wptGitPath;
                     "Caching WPT data in " +:+ wptDataPath] ++ logged res |}
      end
  end.

(** ** A small repository to run the program on *)

(** A 20-byte hash with the given first and last byte. *)
Definition hash_of (first last : byte) : list byte :=
  first :: replicate 14 x00 ++ [x00; x00; x00; x00; last].

Definition commit_A : Commit := {| Hash := hash_of x00 x10; Message := "A" |}.
Definition commit_B : Commit := {| Hash := hash_of x01 x20; Message := "B" |}.
Definition commit_C : Commit := {| Hash := hash_of x02 x05; Message := "C" |}.

(** A repository whose commit iterator hands out [commits] and ends with
    [io.EOF]. *)
Definition repo_of (commits : list Commit) : Repository :=
  {| CommitObjects := inl {| iter_pending := commits; iter_end := io_EOF |} |}.

(** No mirror at the local path: [git.Open] reports
    [ErrRepositoryNotExists], and [git.Clone] succeeds with [cloned]. *)
Definition fresh_host (cloned : Repository) : git_Host :=
  {| git_Open _ _ := inr git_ErrRepositoryNotExists;
     git_Clone _ _ _ := inl cloned;
     repo_Worktree _ := inr (other_error "no worktree");
     wt_Pull _ := None |}.

(** A mirror at the local path, and what the pull answers. *)
Definition mirror_host (repo : Repository) (pull : option error) : git_Host :=
  {| git_Open _ _ := inl repo;
     git_Clone _ _ _ := inr (other_error "repository already exists");
     repo_Worktree _ := inl {| wt_root := ".wpt" |};
     wt_Pull _ := pull |}.

Definition run_A : TestRun := {| Revision := "0000000010" |}.
Definition run_low : TestRun := {| Revision := "0000000001" |}.
Definition run_high : TestRun := {| Revision := "0000000030" |}.
Definition run_short : TestRun := {| Revision := "00000010" |}.

(** Every set-up call of [main] succeeds, and the query yields [runs]. *)
Definition process_of (runs : list TestRun) : Process :=
  {| os_MkdirAll := None;
     datastore_NewClient :=
       inl {| client_Run := {| it_pending := runs; it_end := iterator_Done |} |};
     filesystem_NewStorage := None |}.

(** The goroutines complete in the reverse of the order they were spawned
    in. *)
Definition last_first (runs : list TestRun) : list (nat * TestRun) :=
  reverse (spawned runs).

(** ** Facts about [bytes.Compare] *)

Lemma byte_to_N_inj (x y : byte) : Byte.to_N x = Byte.to_N y → x = y.
Proof.
  intros E. pose proof (Byte.of_to_N x) as Hx.
  rewrite E, Byte.of_to_N in Hx. congruence.
Qed.

Lemma Compare_range (a b : list byte) :
  bytes.Compare a b = -1 ∨ bytes.Compare a b = 0 ∨ bytes.Compare a b = 1.
Proof.
  revert b. induction a as [|x a IH]; intros [|y b]; simpl; auto.
  destruct (N.compare_spec (Byte.to_N x) (Byte.to_N y)); auto.
Qed.

Lemma Compare_refl (a : list byte) : bytes.Compare a a = 0.
Proof.
  induction a as [|x a IH]; simpl; [done|].
  by rewrite N.compare_refl.
Qed.

Lemma Compare_eq (a b : list byte) : bytes.Compare a b = 0 → a = b.
Proof.
  revert b. induction a as [|x a IH]; intros [|y b]; simpl; try done.
  destruct (N.compare_spec (Byte.to_N x) (Byte.to_N y)) as [E| |]; try done.
  intros H. f_equal; [by apply byte_to_N_inj | by apply IH].
Qed.

Lemma Compare_eq_iff (a b : list byte) : bytes.Compare a b = 0 ↔ a = b.
Proof. split; [apply Compare_eq | intros ->; apply Compare_refl]. Qed.

(** Swapping the arguments negates the result. *)
Lemma Compare_antisym (a b : list byte) : bytes.Compare b a = - bytes.Compare a b.
Proof.
  revert b. induction a as [|x a IH]; intros [|y b]; simpl; try done.
  rewrite (N.compare_antisym (Byte.to_N x) (Byte.to_N y)).
  destruct (Byte.to_N x ?= Byte.to_N y)%N; simpl; auto.
Qed.

Lemma Compare_lt_trans (a b c : list byte) :
  bytes.Compare a b = -1 → bytes.Compare b c = -1 → bytes.Compare a c = -1.
Proof.
  revert b c. induction a as [|x a IH]; intros [|y b] [|z c]; simpl; try done.
  destruct (N.compare_spec (Byte.to_N x) (Byte.to_N y)) as [E1|L1|G1];
    destruct (N.compare_spec (Byte.to_N y) (Byte.to_N z)) as [E2|L2|G2];
    try done; intros H1 H2.
  - rewrite E1, E2, N.compare_refl. eauto.
  - rewrite E1. by apply N.compare_lt_iff in L2 as ->.
  - rewrite <- E2. by apply N.compare_lt_iff in L1 as ->.
  - assert (Byte.to_N x < Byte.to_N z)%N as L by lia.
    by apply N.compare_lt_iff in L as ->.
Qed.

Lemma bytes_le_alt a b : bytes_le a b ↔ bytes.Compare b a ≠ -1.
Proof. unfold bytes_le. rewrite (Compare_antisym a b). lia. Qed.

Global Instance bytes_le_refl : Reflexive bytes_le.
Proof. intros a. unfold bytes_le. by rewrite Compare_refl. Qed.

Global Instance bytes_le_total : Total bytes_le.
Proof.
  intros a b. unfold bytes_le. rewrite (Compare_antisym a b).
  destruct (Compare_range a b) as [H|[H|H]]; rewrite H; [left|left|right]; done.
Qed.

Global Instance bytes_le_antisym : AntiSymm (=) bytes_le.
Proof.
  intros a b H1 H2. apply bytes_le_alt in H2. unfold bytes_le in H1.
  apply Compare_eq.
  destruct (Compare_range a b) as [H|[H|H]]; congruence.
Qed.

Global Instance bytes_le_trans : Transitive bytes_le.
Proof.
  intros a b c Hab Hbc. apply bytes_le_alt. intros Hca.
  apply bytes_le_alt in Hab, Hbc.
  destruct (Compare_range c b) as [H|[H|H]]; [done| |].
  - apply Compare_eq in H as ->. done.
  - destruct (Compare_range b a) as [H'|[H'|H']]; [done| |].
    + apply Compare_eq in H' as ->. done.
    + rewrite Compare_antisym in H, H'.
      assert (bytes.Compare a b = -1) as Lab by lia.
      assert (bytes.Compare b c = -1) as Lbc by lia.
      pose proof (Compare_lt_trans _ _ _ Lab Lbc) as Lac.
      rewrite (Compare_antisym c a) in Lac. lia.
Qed.

(** ** Facts about [findHash] *)

(** The body of the Go function, as one equation. *)
Lemma findHash_body (commits : list Commit) (shortHash : list byte) :
  findHash commits shortHash =
    let mid := (length commits / 2)%nat in
    if (length commits =? 0)%nat then -1
    else
      let cmp := bytes.Compare (last5 (Hash (commits !!! mid))) shortHash in
      if cmp =? 1 then findHash (take mid commits) shortHash
      else if cmp =? -1 then
        findHash (drop (mid + 1)%nat commits) shortHash + Z.of_nat mid + 1
      else Z.of_nat mid.
Proof.
  rewrite findHash_equation_1. unfold inspect.
  set (body := λ b : bool, if b then -1 else
    let mid := (length commits / 2)%nat in
    let cmp := bytes.Compare (last5 (Hash (commits !!! mid))) shortHash in
    if cmp =? 1 then findHash (take mid commits) shortHash
    else if cmp =? -1 then
      findHash (drop (mid + 1)%nat commits) shortHash + Z.of_nat mid + 1
    else Z.of_nat mid).
  assert (∀ b e, findHash_unfold_clause_1 commits (b ↾ e) shortHash = body b) as ->
    by (intros [] e; reflexivity).
  reflexivity.
Qed.

Lemma findHash_nil (shortHash : list byte) : findHash [] shortHash = -1.
Proof. by rewrite findHash_body. Qed.

Lemma mid_lt (commits : list Commit) :
  length commits ≠ 0%nat → (length commits / 2 < length commits)%nat.
Proof. intros H. apply Nat.div_lt; lia. Qed.

Lemma lookup_mid (commits : list Commit) :
  length commits ≠ 0%nat →
  commits !! (length commits / 2)%nat = Some (commits !!! (length commits / 2)%nat).
Proof. intros H. apply list_lookup_lookup_total_lt. by apply mid_lt. Qed.

(** Induction on the length of a slice, the measure [findHash] recurses on. *)
Lemma slice_length_ind {A} (P : list A → Prop) :
  (∀ l, (∀ l', (length l' < length l)%nat → P l') → P l) → ∀ l, P l.
Proof.
  intros step l. remember (length l) as n eqn:E. revert l E.
  induction n as [n IH] using lt_wf_ind. intros l ->.
  apply step. intros l' Hl'. by apply (IH (length l')).
Qed.

Lemma findHash_call_shorter shortHash callee caller :
  findHash_call shortHash callee caller → (length callee < length caller)%nat.
Proof.
  intros [commits Hlen _|commits Hlen _].
  - rewrite length_take. pose proof (mid_lt commits Hlen). lia.
  - rewrite length_drop. lia.
Qed.

Lemma findHash_call_wf shortHash : well_founded (findHash_call shortHash).
Proof.
  intros commits. induction commits as [commits IH] using slice_length_ind.
  constructor. intros callee Hcall.
  apply IH. by eapply findHash_call_shorter.
Qed.

(** The result of [findHash] is -1 or a position of the slice. *)
Lemma findHash_bounds (commits : list Commit) (shortHash : list byte) :
  -1 ≤ findHash commits shortHash < Z.of_nat (length commits).
Proof.
  induction commits as [commits IH] using slice_length_ind.
  rewrite findHash_body. cbv zeta.
  destruct (length commits =? 0)%nat eqn:Hlen.
  { apply Nat.eqb_eq in Hlen. lia. }
  apply Nat.eqb_neq in Hlen. pose proof (mid_lt commits Hlen) as Hmid.
  repeat case_match.
  - pose proof (IH (take (length commits / 2)%nat commits)) as H1.
    rewrite length_take in H1. lia.
  - pose proof (IH (drop (length commits / 2 + 1)%nat commits)) as H1.
    rewrite length_drop in H1. lia.
  - lia.
Qed.

(** [findHash] answers -1 only when every step of the search goes into the
    lower half. *)
Lemma findHash_minus_one (commits : list Commit) (shortHash : list byte) :
  findHash commits shortHash = -1 ↔
  length commits = 0%nat ∨
  bytes.Compare (last5 (Hash (commits !!! (length commits / 2)%nat))) shortHash = 1 ∧
  findHash (take (length commits / 2)%nat commits) shortHash = -1.
Proof.
  rewrite (findHash_body commits). cbv zeta.
  destruct (Nat.eqb_spec (length commits) 0) as [Hlen|Hlen]; [tauto|].
  pose proof (findHash_bounds (drop (length commits / 2 + 1) commits) shortHash).
  destruct (Z.eqb_spec
    (bytes.Compare (last5 (Hash (commits !!! (length commits / 2)%nat))) shortHash) 1)
    as [E|E].
  - rewrite E. tauto.
  - destruct (_ =? -1); split; intros H'; try lia; destruct H' as [|[]]; done.
Qed.

Lemma index_nonneg (commits : list Commit) (idx : Z) :
  0 ≤ idx → index commits idx = commits !! Z.to_nat idx.
Proof. intros H. unfold index. by rewrite (proj2 (Z.ltb_ge _ _)). Qed.

Lemma index_findHash (commits : list Commit) (shortHash : list byte) :
  findHash commits shortHash ≠ -1 →
  ∃ c, index commits (findHash commits shortHash) = Some c ∧ c ∈ commits.
Proof.
  intros Hne. pose proof (findHash_bounds commits shortHash) as Hb.
  rewrite index_nonneg by lia.
  destruct (lookup_lt_is_Some_2 commits (Z.to_nat (findHash commits shortHash)))
    as [c Hc]; [lia|].
  exists c. split; [done|]. by eapply list_elem_of_lookup_2.
Qed.

Global Instance suffix_le_trans : Transitive suffix_le.
Proof. intros a b c. unfold suffix_le. apply bytes_le_trans. Qed.

(** On a slice that is non-decreasing in the trailing five bytes, [findHash]
    finds a position holding the suffix whenever some commit has it. *)
Lemma findHash_suffix_sorted (commits : list Commit) (C : Commit) :
  Sorted suffix_le commits →
  C ∈ commits →
  ∃ c, 0 ≤ findHash commits (last5 (Hash C)) ∧
       index commits (findHash commits (last5 (Hash C))) = Some c ∧
       last5 (Hash c) = last5 (Hash C).
Proof.
  intros Hs. apply (Sorted_StronglySorted _) in Hs. revert Hs.
  induction commits as [commits IH] using slice_length_ind. intros Hs HC.
  rewrite findHash_body. cbv zeta.
  destruct (length commits =? 0)%nat eqn:Hlen.
  { apply Nat.eqb_eq in Hlen. destruct commits; [by inv HC | done]. }
  apply Nat.eqb_neq in Hlen. pose proof (mid_lt commits Hlen) as Hmid.
  pose proof (lookup_mid commits Hlen) as Hm.
  set (mid := (length commits / 2)%nat) in *.
  set (m := commits !!! mid) in *.
  replace (mid + 1)%nat with (S mid) by lia.
  pose proof (take_drop_middle commits mid m Hm) as Hsplit.
  rewrite <- Hsplit in Hs, HC.
  apply StronglySorted_app in Hs as (Hlr & Hl & Hr).
  apply StronglySorted_cons in Hr as [Hmr Hr].
  rewrite elem_of_app, elem_of_cons in HC.
  destruct (Compare_range (last5 (Hash m)) (last5 (Hash C))) as [E|[E|E]];
    rewrite E; simpl.
  - (* the suffix lies above the middle *)
    assert (C ∈ drop (S mid) commits) as HCr.
    { destruct HC as [HC|[->|HC]]; [| |done].
      - specialize (Hlr C m HC (list_elem_of_here _ _)).
        apply bytes_le_alt in Hlr. done.
      - by rewrite Compare_refl in E. }
    destruct (IH (drop (S mid) commits)) as (c & Hge & Hc & Hsuf);
      [rewrite length_drop; lia|done..|].
    exists c. split; [lia|]. split; [|done].
    rewrite index_nonneg in Hc |- * by lia.
    rewrite lookup_drop in Hc. rewrite <- Hc. f_equal. lia.
  - (* the middle holds the suffix *)
    exists m. split; [lia|]. split; [|by apply Compare_eq].
    rewrite index_nonneg by lia. by rewrite Nat2Z.id.
  - (* the suffix lies below the middle *)
    assert (C ∈ take mid commits) as HCl.
    { destruct HC as [HC|[->|HC]]; [done| |].
      - by rewrite Compare_refl in E.
      - rewrite Forall_forall in Hmr. specialize (Hmr C HC). done. }
    destruct (IH (take mid commits)) as (c & Hge & Hc & Hsuf);
      [rewrite length_take; lia|done..|].
    exists c. split; [lia|]. split; [|done].
    rewrite index_nonneg in Hc |- * by lia.
    rewrite lookup_take_Some in Hc. tauto.
Qed.

(** ** Hexadecimal decoding *)

Lemma string_pair_ind (P : string → Prop) :
  P EmptyString →
  (∀ p, P (String p EmptyString)) →
  (∀ p q rest, P rest → P (String p (String q rest))) →
  ∀ s, P s.
Proof.
  intros H0 H1 H2.
  assert (∀ s, P s ∧ ∀ p, P (String p s)) as H; [|intros s; apply H].
  induction s as [|q s [IH1 IH2]]; split; auto.
Qed.

(** A successful decoding yields half as many bytes as there are characters. *)
Lemma DecodeString_length (s : string) (bs : list byte) :
  hex.DecodeString s = inl bs → String.length s = (2 * length bs)%nat.
Proof.
  revert bs. induction s as [|p|p q rest IH] using string_pair_ind; intros bs; simpl.
  - by intros [= <-].
  - by destruct (hex.fromHexChar p).
  - destruct (hex.fromHexChar p); [|done].
    destruct (hex.fromHexChar q); [|done].
    destruct (hex.DecodeString rest) as [bs'|]; [|done].
    intros [= <-]. simpl. rewrite (IH bs' eq_refl). lia.
Qed.

(** An even number of hexadecimal digits always decodes. *)
Lemma DecodeString_hex (s : string) (n : nat) :
  String.length s = (2 * n)%nat →
  Forall hex.is_hex (String.list_ascii_of_string s) →
  ∃ bs, hex.DecodeString s = inl bs ∧ length bs = n.
Proof.
  revert n. induction s as [|p|p q rest IH] using string_pair_ind; intros n; simpl.
  - intros Hn _. exists []. split; [done|]. simpl. lia.
  - intros Hn. lia.
  - intros Hn Hhex.
    apply Forall_cons in Hhex as [[a ->] Hhex].
    apply Forall_cons in Hhex as [[b ->] Hhex].
    destruct n as [|n]; [lia|].
    destruct (IH n) as (bs & -> & Hlen); [lia|done|].
    eexists. split; [done|]. simpl. lia.
Qed.

(** ** One goroutine *)

Lemma match_run_malformed commits i run st :
  ¬ well_formed run → ∃ f, match_run commits i run st = Fatal f.
Proof.
  unfold well_formed, match_run.
  destruct (hex.DecodeString (Revision run)) as [runHash|err]; [|by eauto].
  intros Hlen. rewrite decide_True by done. eauto.
Qed.

Lemma match_run_miss commits i run st runHash :
  hex.DecodeString (Revision run) = inl runHash →
  length runHash = 5%nat →
  findHash commits runHash = -1 →
  match_run commits i run st =
    Done {| found := found st;
            logged := logged st ++ ["Failed to find revision for " +:+ Revision run] |}.
Proof.
  intros Hdec Hlen Hidx. unfold match_run.
  rewrite Hdec, decide_False by (intros ?; done).
  cbv zeta. by rewrite Hidx.
Qed.

Lemma resolve_None commits run runHash :
  hex.DecodeString (Revision run) = inl runHash →
  resolve commits run = None ↔ findHash commits runHash = -1.
Proof.
  intros Hdec. unfold resolve. rewrite Hdec. cbv zeta.
  destruct (Z.eqb_spec (findHash commits runHash) (-1)) as [E|E]; [done|].
  destruct (index_findHash commits runHash E) as (c & -> & _). done.
Qed.

Lemma resolve_elem_of commits run c :
  resolve commits run = Some c → c ∈ commits.
Proof.
  unfold resolve.
  destruct (hex.DecodeString (Revision run)) as [runHash|]; [|done].
  cbv zeta. destruct (Z.eqb_spec (findHash commits runHash) (-1)) as [E|E]; [done|].
  destruct (index_findHash commits runHash E) as (c' & -> & Hc'). by intros [= <-].
Qed.

(** A well-formed record makes its goroutine return: the slot is written with
    what [resolve] yields, or left as it was on a miss, and one line is logged. *)
Lemma match_run_well_formed commits i run st :
  well_formed run →
  (i < length (found st))%nat →
  ∃ line,
    match_run commits i run st =
      Done {| found := match resolve commits run with
                       | Some c => <[i := Some c]> (found st)
                       | None => found st
                       end;
              logged := logged st ++ [line] |}.
Proof.
  unfold well_formed, match_run, resolve.
  destruct (hex.DecodeString (Revision run)) as [runHash|err]; [|done].
  intros Hlen Hi. rewrite decide_False by (intros ?; done). cbv zeta.
  destruct (Z.eqb_spec (findHash commits runHash) (-1)) as [E|E]; [by eauto|].
  destruct (index_findHash commits runHash E) as (c & -> & _).
  rewrite decide_True by done. eauto.
Qed.

Lemma match_run_no_panic commits i run st p :
  (i < length (found st))%nat → match_run commits i run st ≠ Panic p.
Proof.
  intros Hi. destruct (decide (well_formed run)) as [Hwf|Hwf].
  - destruct (match_run_well_formed commits i run st Hwf Hi) as [line ->]. done.
  - destruct (match_run_malformed commits i run st Hwf) as [f ->]. done.
Qed.

(** ** Schedules *)

Lemma spawned_elem_of (runs : list TestRun) i run :
  (i, run) ∈ spawned runs ↔ runs !! i = Some run.
Proof.
  unfold spawned. rewrite elem_of_lookup_imap. split.
  - by intros (j & x & [= -> ->] & Hx).
  - intros H. by exists i, run.
Qed.

Lemma spawned_indices (runs : list TestRun) :
  (spawned runs).*1 = seq 0 (length runs).
Proof.
  unfold spawned. apply list_eq. intros i.
  rewrite list_lookup_fmap, list_lookup_imap.
  destruct (runs !! i) as [run|] eqn:Hi; simpl.
  - symmetry. apply lookup_seq. split; [done|]. by eapply lookup_lt_Some.
  - symmetry. apply lookup_seq_ge. by apply lookup_ge_None.
Qed.

Lemma schedule_elem_of runs order i run :
  schedule runs order → (i, run) ∈ order ↔ runs !! i = Some run.
Proof. intros Hs. unfold schedule in Hs. by rewrite Hs, spawned_elem_of. Qed.

Lemma schedule_NoDup runs order : schedule runs order → NoDup order.*1.
Proof.
  intros Hs. unfold schedule in Hs. rewrite Hs, spawned_indices. apply NoDup_seq.
Qed.

Lemma schedule_in_range runs order :
  schedule runs order → Forall (λ ir, (ir.1 < length runs)%nat) order.
Proof.
  intros Hs. apply Forall_forall. intros [i run] Hin.
  apply (schedule_elem_of _ _ _ _ Hs) in Hin. by eapply lookup_lt_Some.
Qed.

Lemma schedule_nil order : schedule [] order → order = [].
Proof. intros Hs. by apply Permutation_nil_r in Hs. Qed.

(** ** All goroutines *)

(** On well-formed records the goroutines all return, in whatever order they
    run: each has written the slot of its own position and logged its line. *)
Lemma run_goroutines_well_formed commits order : ∀ st,
  NoDup order.*1 →
  Forall (λ ir, well_formed ir.2 ∧ (ir.1 < length (found st))%nat) order →
  (∀ ir, ir ∈ order → found st !! ir.1 = Some None) →
  ∃ st',
    run_goroutines commits order st = Done st' ∧
    length (found st') = length (found st) ∧
    (∀ j, j ∉ order.*1 → found st' !! j = found st !! j) ∧
    (∀ ir, ir ∈ order → found st' !! ir.1 = Some (resolve commits ir.2)) ∧
    (∀ line, line ∈ logged st → line ∈ logged st') ∧
    (∀ ir, ir ∈ order → resolve commits ir.2 = None →
       "Failed to find revision for " +:+ Revision ir.2 ∈ logged st').
Proof.
  induction order as [|[i run] order IH]; intros st Hnd Hwf Hnone.
  { exists st. repeat split; try done; intros ir Hin; by inv Hin. }
  simpl in Hnd. apply NoDup_cons in Hnd as [Hi Hnd].
  apply Forall_cons in Hwf as [[Hrun Hlt] Hwf]. simpl in Hrun, Hlt.
  destruct (match_run_well_formed commits i run st Hrun Hlt) as [line Hstep].
  set (st1 := {| found := match resolve commits run with
                          | Some c => <[i := Some c]> (found st)
                          | None => found st
                          end;
                 logged := logged st ++ [line] |}) in Hstep.
  assert (length (found st1) = length (found st)) as Hlen1.
  { simpl. destruct (resolve commits run); [by rewrite length_insert | done]. }
  assert (∀ j, j ≠ i → found st1 !! j = found st !! j) as Hother.
  { intros j Hj. simpl. destruct (resolve commits run); [|done].
    by rewrite list_lookup_insert_ne. }
  assert (found st1 !! i = Some (resolve commits run)) as Hslot.
  { simpl. destruct (resolve commits run) as [c|].
    - by rewrite list_lookup_insert_eq.
    - apply (Hnone (i, run)). by left. }
  destruct (IH st1) as (st' & Hrun' & Hlen' & Hout & Hin & Hlog & Hmiss); [done| | |].
  { rewrite Hlen1. eapply Forall_impl; [exact Hwf|]. naive_solver. }
  { intros [j r] Hjr. simpl. rewrite Hother.
    - apply (Hnone (j, r)). by right.
    - intros ->. apply Hi. apply list_elem_of_fmap. by exists (i, r). }
  exists st'. simpl. rewrite Hstep. simpl. split; [done|].
  split; [congruence|]. split; [|split; [|split]].
  - intros j Hj. apply not_elem_of_cons in Hj as [Hji Hj].
    rewrite Hout by done. by apply Hother.
  - intros ir [->|Hir]%elem_of_cons; [|by apply Hin].
    simpl. rewrite Hout by done. done.
  - intros l Hl. apply Hlog. simpl. apply elem_of_app. by left.
  - intros ir [->|Hir]%elem_of_cons Hres; [|by apply Hmiss].
    simpl in *. apply Hlog. simpl. apply elem_of_app. right.
    unfold well_formed in Hrun.
    destruct (hex.DecodeString (Revision run)) as [runHash|] eqn:Hdec; [|done].
    apply (resolve_None commits run runHash Hdec) in Hres.
    rewrite (match_run_miss commits i run st runHash Hdec Hrun Hres) in Hstep.
    injection Hstep as _ Hline. apply app_inv_head in Hline as [= <-]. by left.
Qed.

(** One malformed record ends the process, whatever the order. *)
Lemma run_goroutines_malformed commits order : ∀ st,
  Forall (λ ir, (ir.1 < length (found st))%nat) order →
  Exists (λ ir, ¬ well_formed ir.2) order →
  ∃ f, run_goroutines commits order st = Fatal f.
Proof.
  induction order as [|[i run] order IH]; intros st Hlt Hex; [by inv Hex|].
  apply Forall_cons in Hlt as [Hi Hlt]. simpl in Hi. simpl.
  destruct (decide (well_formed run)) as [Hwf|Hwf].
  - destruct (match_run_well_formed commits i run st Hwf Hi) as [line ->]. simpl.
    apply IH.
    + simpl. destruct (resolve commits run); [by rewrite length_insert | done].
    + by inv Hex.
  - destruct (match_run_malformed commits i run st Hwf) as [f ->]. by exists f.
Qed.

(** The goroutines never index out of range. *)
Lemma run_goroutines_no_panic commits order : ∀ st p,
  Forall (λ ir, (ir.1 < length (found st))%nat) order →
  run_goroutines commits order st ≠ Panic p.
Proof.
  induction order as [|[i run] order IH]; intros st p Hlt; [done|].
  apply Forall_cons in Hlt as [Hi Hlt]. simpl in Hi. simpl.
  destruct (decide (well_formed run)) as [Hwf|Hwf].
  - destruct (match_run_well_formed commits i run st Hwf Hi) as [line ->]. simpl.
    apply IH. simpl. destruct (resolve commits run); [by rewrite length_insert | done].
  - destruct (match_run_malformed commits i run st Hwf) as [f ->]. done.
Qed.

(** Whatever is written into a slot comes from the index. *)
Lemma run_goroutines_elem_of commits order : ∀ st st',
  run_goroutines commits order st = Done st' →
  (∀ i c, found st !! i = Some (Some c) → c ∈ commits) →
  ∀ i c, found st' !! i = Some (Some c) → c ∈ commits.
Proof.
  induction order as [|[k run] order IH]; intros st st' Hrun Hst; simpl in Hrun.
  { by injection Hrun as <-. }
  destruct (match_run commits k run st) as [st1| |] eqn:Hstep; simpl in Hrun; try done.
  apply (IH st1 st' Hrun). clear IH Hrun.
  unfold match_run in Hstep.
  destruct (hex.DecodeString (Revision run)) as [runHash|]; [|done].
  case_decide; [done|]. cbv zeta in Hstep.
  destruct (Z.eqb_spec (findHash commits runHash) (-1)) as [E|E].
  { injection Hstep as <-. done. }
  destruct (index_findHash commits runHash E) as (c & Hc & Hin).
  rewrite Hc in Hstep. case_decide; [|done]. injection Hstep as <-. simpl.
  intros i c'. destruct (decide (i = k)) as [->|Hik].
  - rewrite list_lookup_insert_eq by done. by intros [= <-].
  - rewrite list_lookup_insert_ne by done. apply Hst.
Qed.

(** ** The order of the index *)

Global Instance hash_le_trans : Transitive hash_le.
Proof. intros a b c. unfold hash_le. apply bytes_le_trans. Qed.

Global Instance hash_le_total : Total hash_le.
Proof. intros a b. unfold hash_le. apply bytes_le_total. Qed.

Lemma Less_false (c : byHash) (i j : nat) :
  Less c j i = false ↔ hash_le (c !!! i) (c !!! j).
Proof.
  unfold hash_le. rewrite bytes_le_alt. simpl. apply Z.eqb_neq.
Qed.

(** [Swap] exchanges two elements and keeps the rest. *)
Lemma Swap_permutes (c : byHash) (i j : nat) :
  (i < Len c)%nat → (j < Len c)%nat → Swap c i j ≡ₚ c.
Proof.
  simpl. intros Hi Hj. apply Permutation_inj.
  split; [by rewrite !length_insert|].
  exists (λ k, if decide (k = i) then j else if decide (k = j) then i else k).
  split.
  - intros k1 k2. repeat case_decide; congruence.
  - intros k. destruct (decide (k = j)) as [->|Hkj].
    + rewrite list_lookup_insert_eq by (by rewrite length_insert).
      case_decide; subst; symmetry; by apply list_lookup_lookup_total_lt.
    + rewrite list_lookup_insert_ne by done.
      destruct (decide (k = i)) as [->|Hki].
      * rewrite list_lookup_insert_eq by done.
        symmetry; by apply list_lookup_lookup_total_lt.
      * by rewrite list_lookup_insert_ne.
Qed.

(** ** Gathering the commits *)

Lemma gather_app pending final commits :
  gather pending final commits = (commits ++ pending, final).
Proof.
  revert commits. induction pending as [|c pending IH]; intros commits; simpl.
  - by rewrite app_nil_r.
  - by rewrite IH, <- app_assoc.
Qed.

Lemma gatherCommits_Done repo commits :
  gatherCommits repo = Done commits ↔
  ∃ iter, CommitObjects repo = inl iter ∧ iter_end iter = io_EOF ∧
          iter_pending iter = commits.
Proof.
  unfold gatherCommits. split.
  - destruct (CommitObjects repo) as [iter|]; [|done].
    rewrite gather_app. simpl. case_decide; [|done].
    intros [= <-]. by exists iter.
  - intros (iter & -> & Hend & <-). rewrite gather_app. simpl.
    by rewrite decide_True.
Qed.

(** ** The matching phase, for any index *)

Lemma matching_well_formed commits runs order :
  schedule runs order →
  Forall well_formed runs →
  ∃ res,
    run_goroutines commits order (start runs) = Done res ∧
    length (found res) = length runs ∧
    (∀ i run, runs !! i = Some run → found res !! i = Some (resolve commits run)) ∧
    (∀ i run, runs !! i = Some run → resolve commits run = None →
       "Failed to find revision for " +:+ Revision run ∈ logged res).
Proof.
  intros Hs Hwf.
  destruct (run_goroutines_well_formed commits order (start runs))
    as (res & Hrun & Hlen & _ & Hin & _ & Hmiss).
  - by eapply schedule_NoDup.
  - apply Forall_forall. intros [i run] Hir. simpl. rewrite length_replicate.
    apply (schedule_elem_of _ _ _ _ Hs) in Hir. split.
    + rewrite Forall_forall in Hwf. apply Hwf. by eapply list_elem_of_lookup_2.
    + by eapply lookup_lt_Some.
  - intros [i run] Hir. simpl. apply lookup_replicate. split; [done|].
    apply (schedule_elem_of _ _ _ _ Hs) in Hir. by eapply lookup_lt_Some.
  - exists res. split; [done|]. split; [by rewrite Hlen; simpl; rewrite length_replicate|].
    split.
    + intros i run Hi. apply (Hin (i, run)). by apply (schedule_elem_of _ _ _ _ Hs).
    + intros i run Hi. apply (Hmiss (i, run)). by apply (schedule_elem_of _ _ _ _ Hs).
Qed.

Lemma matching_malformed commits runs order i run :
  schedule runs order →
  runs !! i = Some run →
  ¬ well_formed run →
  ∃ f, run_goroutines commits order (start runs) = Fatal f.
Proof.
  intros Hs Hi Hwf. apply run_goroutines_malformed.
  - simpl. rewrite length_replicate. by apply schedule_in_range.
  - apply Exists_exists. exists (i, run). split; [|done].
    by apply (schedule_elem_of _ _ _ _ Hs).
Qed.

Lemma matching_Done_well_formed commits runs order res :
  schedule runs order →
  run_goroutines commits order (start runs) = Done res →
  Forall well_formed runs.
Proof.
  intros Hs Hrun. destruct (decide (Forall well_formed runs)) as [|Hn]; [done|].
  apply not_Forall_Exists in Hn; [|apply _].
  apply Exists_exists in Hn as (run & [i Hi]%list_elem_of_lookup & Hwf).
  destruct (matching_malformed commits runs order i run Hs Hi Hwf) as [f Hf].
  congruence.
Qed.

(** ** Sorted sequences *)

Lemma StronglySorted_lookup_lt {A} (R : relation A) (l : list A) i j x y :
  StronglySorted R l → l !! i = Some x → l !! j = Some y → (i < j)%nat → R x y.
Proof.
  intros Hs. revert i j. induction Hs as [|a l Hs IH Ha]; intros i j Hi Hj Hij.
  { done. }
  destruct j as [|j]; [lia|]. simpl in Hj. destruct i as [|i]; simpl in Hi.
  - injection Hi as ->. rewrite Forall_forall in Ha. apply Ha.
    by eapply list_elem_of_lookup_2.
  - apply (IH i j); [done..|lia].
Qed.

Lemma StronglySorted_Hash (l : list Commit) :
  StronglySorted hash_le l → StronglySorted bytes_le (Hash <$> l).
Proof.
  induction 1 as [|a l Hs IH Ha]; simpl; constructor; [done|].
  by apply Forall_fmap.
Qed.

Lemma NoDup_Hash_inj (l : list Commit) (a b : Commit) :
  NoDup (Hash <$> l) → a ∈ l → b ∈ l → Hash a = Hash b → a = b.
Proof.
  induction l as [|x l IH]; simpl; intros Hnd Ha Hb Hab; [by inv Ha|].
  apply NoDup_cons in Hnd as [Hx Hnd].
  apply elem_of_cons in Ha as [->|Ha]; apply elem_of_cons in Hb as [->|Hb]; auto.
  - exfalso. apply Hx. rewrite Hab. by apply list_elem_of_fmap_2.
  - exfalso. apply Hx. rewrite <- Hab. by apply list_elem_of_fmap_2.
Qed.

(** ** What the specification states *)

(** C10: [findHash] terminates on every input.  The function is total; the
    calls its body makes form a well-founded relation, each being on a strictly
    shorter slice: [commits[:mid]] of length [mid < len(commits)], or
    [commits[mid+1:]] of length [len(commits) - mid - 1]. *)
Theorem findHash_terminates :
  (∀ shortHash, well_founded (findHash_call shortHash)) ∧
  (∀ shortHash callee caller,
     findHash_call shortHash callee caller → (length callee < length caller)%nat) ∧
  (∀ commits : list Commit,
     let mid := (length commits / 2)%nat in
     length commits ≠ 0%nat →
     (mid < length commits)%nat ∧
     length (take mid commits) = mid ∧
     length (drop (mid + 1) commits) = (length commits - mid - 1)%nat) ∧
  (∀ commits shortHash,
     findHash commits shortHash =
       let mid := (length commits / 2)%nat in
       if (length commits =? 0)%nat then -1
       else
         let cmp := bytes.Compare (last5 (Hash (commits !!! mid))) shortHash in
         if cmp =? 1 then findHash (take mid commits) shortHash
         else if cmp =? -1 then
           findHash (drop (mid + 1)%nat commits) shortHash + Z.of_nat mid + 1
         else Z.of_nat mid).
Proof.
  split; [exact findHash_call_wf|].
  split; [exact findHash_call_shorter|].
  split.
  - intros commits mid Hlen. pose proof (mid_lt commits Hlen) as Hmid.
    rewrite length_take, length_drop. lia.
  - exact findHash_body.
Qed.

Section CommitIndexFacts.

(** [sort.Sort] on a [byHash], by what its documentation promises: the data
    are rearranged, in ascending order as determined by [Less]. *)
Variable sort_Sort : byHash → byHash.
Hypothesis sort_Sort_permutes : ∀ data, sort_Sort data ≡ₚ data.
Hypothesis sort_Sort_ascending : ∀ data i j,
  (i < j < Len (sort_Sort data))%nat → Less (sort_Sort data) j i = false.

Lemma buildIndex_Done repo commits :
  buildIndex sort_Sort repo = Done commits ↔
  ∃ gathered, gatherCommits repo = Done gathered ∧ commits = sort_Sort gathered.
Proof.
  unfold buildIndex, mbind, outcome_bind.
  destruct (gatherCommits repo) as [gathered| |].
  - split.
    + intros H. injection H as <-. by exists gathered.
    + intros (g & H1 & H2). injection H1 as <-. by subst.
  - split; [intros H | intros (g & H & _)]; discriminate H.
  - split; [intros H | intros (g & H & _)]; discriminate H.
Qed.

Lemma getCommitForRuns_Some repo commits runs order :
  buildIndex sort_Sort repo = Done commits →
  getCommitForRuns sort_Sort (Some repo) runs order =
    run_goroutines commits order (start runs).
Proof. intros H. unfold getCommitForRuns. by rewrite H. Qed.

Lemma sort_Sort_StronglySorted data : StronglySorted hash_le (sort_Sort data).
Proof.
  pose proof (sort_Sort_ascending data) as Hasc.
  induction (sort_Sort data) as [|x l IH]; constructor.
  - apply IH. intros i j Hij. specialize (Hasc (S i) (S j)).
    apply Less_false. apply Less_false in Hasc; [done|]. simpl in *. lia.
  - apply Forall_lookup. intros k y Hk.
    specialize (Hasc 0%nat (S k)). apply Less_false in Hasc.
    + simpl in Hasc. by rewrite (list_lookup_total_correct _ _ _ Hk) in Hasc.
    + simpl. apply lookup_lt_Some in Hk. lia.
Qed.

(** C9: for every slice of commits and every suffix, [findHash] returns -1 or
    an integer in [0, length-1]; [commits[idx]] after a result other than -1
    is within bounds, the goroutines never panic on an index, and every
    non-absent entry of the resolver's output is an element of the built
    index. *)
Theorem findHash_result_in_bounds :
  (∀ commits shortHash,
     findHash commits shortHash = -1 ∨
     0 ≤ findHash commits shortHash ≤ Z.of_nat (length commits) - 1) ∧
  (∀ commits shortHash,
     findHash commits shortHash ≠ -1 →
     ∃ c, index commits (findHash commits shortHash) = Some c ∧ c ∈ commits) ∧
  (∀ repo runs order p,
     schedule runs order →
     getCommitForRuns sort_Sort (Some repo) runs order ≠ Panic p) ∧
  (∀ repo commits runs order res,
     buildIndex sort_Sort repo = Done commits →
     getCommitForRuns sort_Sort (Some repo) runs order = Done res →
     ∀ i c, found res !! i = Some (Some c) → c ∈ commits).
Proof.
  split; [|split; [|split]].
  - intros commits shortHash.
    pose proof (findHash_bounds commits shortHash). lia.
  - exact index_findHash.
  - intros repo runs order p Hs.
    destruct (buildIndex sort_Sort repo) as [commits| |] eqn:Hb.
    + rewrite (getCommitForRuns_Some _ _ _ _ Hb).
      apply run_goroutines_no_panic. simpl. rewrite length_replicate.
      by apply schedule_in_range.
    + unfold getCommitForRuns. by rewrite Hb.
    + unfold getCommitForRuns. rewrite Hb. simpl.
      unfold buildIndex, gatherCommits in Hb.
      destruct (CommitObjects repo); [|done].
      rewrite gather_app in Hb. simpl in Hb. by case_decide.
  - intros repo commits runs order res Hb Hrun.
    rewrite (getCommitForRuns_Some _ _ _ _ Hb) in Hrun.
    apply (run_goroutines_elem_of _ _ _ _ Hrun).
    intros i c [[=] _]%lookup_replicate.
Qed.

Lemma buildIndex_no_panic repo p : buildIndex sort_Sort repo ≠ Panic p.
Proof.
  unfold buildIndex, gatherCommits, mbind, outcome_bind.
  destruct (CommitObjects repo); [|done].
  rewrite gather_app. simpl. by case_decide.
Qed.

(** C3 (as amended): when the built index, sorted by full hash, is also
    non-decreasing in the trailing 5 bytes, lookup with the exact trailing 5
    bytes of a commit [C] of the repository returns the position of a commit
    whose trailing 5 bytes equal that suffix, and that commit is [C] when no
    other commit shares the suffix. *)
Theorem lookup_existing_suffix_when_suffix_sorted repo gathered commits C :
  gatherCommits repo = Done gathered →
  buildIndex sort_Sort repo = Done commits →
  C ∈ gathered →
  Sorted suffix_le commits →
  ∃ c, 0 ≤ findHash commits (last5 (Hash C)) ∧
       index commits (findHash commits (last5 (Hash C))) = Some c ∧
       c ∈ commits ∧
       last5 (Hash c) = last5 (Hash C) ∧
       ((∀ c', c' ∈ commits → last5 (Hash c') = last5 (Hash C) → c' = C) → c = C).
Proof.
  intros Hg Hb HC Hsorted.
  apply buildIndex_Done in Hb as (gathered' & Hg' & ->).
  rewrite Hg in Hg'. injection Hg' as <-.
  assert (C ∈ sort_Sort gathered) as HC' by (by rewrite sort_Sort_permutes).
  destruct (findHash_suffix_sorted _ C Hsorted HC') as (c & Hge & Hc & Hsuf).
  assert (c ∈ sort_Sort gathered) as Hin.
  { rewrite index_nonneg in Hc by done. by eapply list_elem_of_lookup_2. }
  exists c. repeat split; try done. intros Huniq. by apply Huniq.
Qed.

(** C4: for every input record sequence, [getCommitForRuns] returns a result
    sequence of the same length in which slot [i] holds exactly the outcome
    (matched commit or absent) of resolving record [i], in whatever order the
    goroutines complete; it does return when every record is well-formed, and
    zero records yield an empty result. *)
Theorem getCommitForRuns_slots_by_position repo commits runs order :
  buildIndex sort_Sort repo = Done commits →
  schedule runs order →
  (∀ res, getCommitForRuns sort_Sort (Some repo) runs order = Done res →
     length (found res) = length runs ∧
     ∀ i run, runs !! i = Some run → found res !! i = Some (resolve commits run)) ∧
  (Forall well_formed runs →
     ∃ res, getCommitForRuns sort_Sort (Some repo) runs order = Done res) ∧
  (∀ order' res res',
     schedule runs order' →
     getCommitForRuns sort_Sort (Some repo) runs order = Done res →
     getCommitForRuns sort_Sort (Some repo) runs order' = Done res' →
     found res' = found res) ∧
  (runs = [] →
     ∃ res, getCommitForRuns sort_Sort (Some repo) runs order = Done res ∧
            found res = []).
Proof.
  intros Hb Hs.
  assert (∀ order0 res, schedule runs order0 →
            getCommitForRuns sort_Sort (Some repo) runs order0 = Done res →
            length (found res) = length runs ∧
            ∀ i run, runs !! i = Some run →
                     found res !! i = Some (resolve commits run)) as Hslots.
  { intros order0 res Hs0 Hrun.
    rewrite (getCommitForRuns_Some _ _ _ _ Hb) in Hrun.
    pose proof (matching_Done_well_formed _ _ _ _ Hs0 Hrun) as Hwf.
    destruct (matching_well_formed commits runs order0 Hs0 Hwf)
      as (res' & Hrun' & Hlen & Hin & _).
    rewrite Hrun in Hrun'. injection Hrun' as <-. done. }
  split; [intros res; by apply Hslots|]. split; [|split].
  - intros Hwf. rewrite (getCommitForRuns_Some _ _ _ _ Hb).
    destruct (matching_well_formed commits runs order Hs Hwf) as (res & Hrun & _).
    by exists res.
  - intros order' res res' Hs' Hrun Hrun'.
    destruct (Hslots order res Hs Hrun) as [Hlen Hin].
    destruct (Hslots order' res' Hs' Hrun') as [Hlen' Hin'].
    apply list_eq. intros i. destruct (runs !! i) as [run|] eqn:Hi.
    + by rewrite (Hin _ _ Hi), (Hin' _ _ Hi).
    + apply lookup_ge_None in Hi.
      rewrite (lookup_ge_None_2 (found res)), (lookup_ge_None_2 (found res')); [done|lia..].
  - intros ->. apply schedule_nil in Hs as ->.
    rewrite (getCommitForRuns_Some _ _ _ _ Hb). simpl. by eexists.
Qed.

(** C6: a record whose revision string fails hexadecimal decoding, or whose
    decoded byte length differs from 5, makes its goroutine call [log.Fatal],
    and the whole run ends fatally in whatever order the goroutines run; so
    does every revision that is not 10 characters long; a revision of 10
    hexadecimal characters decodes to 5 bytes and never triggers this abort. *)
Theorem malformed_revision_aborts_run :
  (∀ commits i run st err,
     hex.DecodeString (Revision run) = inr err →
     match_run commits i run st = Fatal (log_Fatal err)) ∧
  (∀ commits i run st runHash,
     hex.DecodeString (Revision run) = inl runHash →
     length runHash ≠ 5%nat →
     match_run commits i run st = Fatal (log_Fatalf_hash_length (length runHash))) ∧
  (∀ repo runs order i run,
     schedule runs order →
     runs !! i = Some run →
     (∃ err, hex.DecodeString (Revision run) = inr err) ∨
     (∃ runHash, hex.DecodeString (Revision run) = inl runHash ∧
                 length runHash ≠ 5%nat) ∨
     String.length (Revision run) ≠ 10%nat →
     ∃ f, getCommitForRuns sort_Sort (Some repo) runs order = Fatal f) ∧
  (∀ run,
     String.length (Revision run) = 10%nat →
     Forall hex.is_hex (String.list_ascii_of_string (Revision run)) →
     (∃ runHash, hex.DecodeString (Revision run) = inl runHash ∧
                 length runHash = 5%nat) ∧
     ∀ commits i st f, match_run commits i run st ≠ Fatal f).
Proof.
  split; [|split; [|split]].
  - intros commits i run st err Hdec. unfold match_run. by rewrite Hdec.
  - intros commits i run st runHash Hdec Hlen. unfold match_run.
    by rewrite Hdec, decide_True.
  - intros repo runs order i run Hs Hi Hbad.
    assert (¬ well_formed run) as Hwf.
    { unfold well_formed. destruct Hbad as [[err ->]|[(runHash & -> & Hlen)|Hlen]]; auto.
      destruct (hex.DecodeString (Revision run)) as [runHash|] eqn:Hdec; [|tauto].
      apply DecodeString_length in Hdec. lia. }
    destruct (buildIndex sort_Sort repo) as [commits|f|p] eqn:Hb.
    + rewrite (getCommitForRuns_Some _ _ _ _ Hb).
      by eapply matching_malformed.
    + exists f. unfold getCommitForRuns. by rewrite Hb.
    + by apply buildIndex_no_panic in Hb.
  - intros run Hlen Hhex.
    destruct (DecodeString_hex (Revision run) 5 Hlen Hhex) as (runHash & Hdec & H5).
    split; [by exists runHash|].
    intros commits i st f. unfold match_run. rewrite Hdec.
    rewrite decide_False by (intros ?; done). cbv zeta.
    destruct (findHash commits runHash =? -1); [done|].
    destruct (index commits _); [|done]. by case_decide.
Qed.

(** C7: a record whose well-formed suffix yields a lookup result of "not
    found" does not abort the run: its goroutine logs the miss and leaves the
    slots as they are; the run never panics, ends fatally only on account of
    another, malformed record, and otherwise returns with this record's slot
    absent, the miss in the log, and every other slot holding that record's
    own outcome. *)
Theorem lookup_miss_does_not_abort repo commits runs order i run runHash :
  buildIndex sort_Sort repo = Done commits →
  schedule runs order →
  runs !! i = Some run →
  hex.DecodeString (Revision run) = inl runHash →
  length runHash = 5%nat →
  findHash commits runHash = -1 →
  (∀ k st, match_run commits k run st =
     Done {| found := found st;
             logged := logged st ++ ["Failed to find revision for " +:+ Revision run] |}) ∧
  (∀ p, getCommitForRuns sort_Sort (Some repo) runs order ≠ Panic p) ∧
  (∀ f, getCommitForRuns sort_Sort (Some repo) runs order = Fatal f →
     ∃ j run', j ≠ i ∧ runs !! j = Some run' ∧ ¬ well_formed run') ∧
  ((∀ j run', j ≠ i → runs !! j = Some run' → well_formed run') →
     ∃ res, getCommitForRuns sort_Sort (Some repo) runs order = Done res) ∧
  (∀ res, getCommitForRuns sort_Sort (Some repo) runs order = Done res →
     found res !! i = Some None ∧
     "Failed to find revision for " +:+ Revision run ∈ logged res ∧
     ∀ j run', j ≠ i → runs !! j = Some run' →
               found res !! j = Some (resolve commits run')).
Proof.
  intros Hb Hs Hi Hdec Hlen Hmiss.
  rewrite (getCommitForRuns_Some _ _ _ _ Hb).
  assert (well_formed run) as Hwf by (unfold well_formed; by rewrite Hdec).
  assert (resolve commits run = None) as Hres by (by apply (resolve_None _ _ runHash)).
  split; [intros k st; by apply (match_run_miss _ _ _ _ runHash)|].
  split.
  { intros p. apply run_goroutines_no_panic. simpl. rewrite length_replicate.
    by apply schedule_in_range. }
  split.
  { intros f Hf. destruct (decide (Forall well_formed runs)) as [Hall|Hn].
    - destruct (matching_well_formed commits runs order Hs Hall) as (res & Hrun & _).
      congruence.
    - apply not_Forall_Exists in Hn; [|apply _].
      apply Exists_exists in Hn as (run' & [j Hj]%list_elem_of_lookup & Hwf').
      exists j, run'. split; [|done]. intros ->. congruence. }
  split.
  { intros Hothers.
    destruct (matching_well_formed commits runs order Hs) as (res & Hrun & _).
    - apply Forall_lookup. intros j run' Hj.
      destruct (decide (j = i)) as [->|Hji]; [congruence|by eapply Hothers].
    - by exists res. }
  intros res Hrun.
  pose proof (matching_Done_well_formed _ _ _ _ Hs Hrun) as Hall.
  destruct (matching_well_formed commits runs order Hs Hall)
    as (res' & Hrun' & _ & Hin & Hlog).
  rewrite Hrun in Hrun'. injection Hrun' as <-.
  split; [by rewrite (Hin _ _ Hi), Hres|].
  split; [by apply (Hlog i)|].
  intros j run' _ Hj. by apply Hin.
Qed.

(** C8: when a mirror already exists at the local path, [getGit] opens it and
    pulls; a pull that reports nothing or "already up to date" is success, the
    repository is returned and [main] goes on to [getCommitForRuns] with it;
    any other pull error is fatal. *)
Theorem getGit_existing_mirror_pull g s fs o repo wt :
  git_Open g s fs = inl repo →
  repo_Worktree g repo = inl wt →
  (wt_Pull g wt = None ∨ wt_Pull g wt = Some git_NoErrAlreadyUpToDate →
     getGit g s fs o =
       ([call_Open s fs; call_Worktree repo; call_Pull wt], Done (Some repo))) ∧
  (∀ err, wt_Pull g wt = Some err → err ≠ git_NoErrAlreadyUpToDate →
     getGit g s fs o =
       ([call_Open s fs; call_Worktree repo; call_Pull wt], Fatal (log_Fatal err))) ∧
  (∀ wptGitPath runs order,
     s = wptGitPath +:+ "/.git" → fs = wptGitPath →
     wt_Pull g wt = None ∨ wt_Pull g wt = Some git_NoErrAlreadyUpToDate →
     main sort_Sort g wptGitPath runs order =
       getCommitForRuns sort_Sort (Some repo) runs order).
Proof.
  intros Hopen Hwt.
  assert (∀ o', wt_Pull g wt = None ∨ wt_Pull g wt = Some git_NoErrAlreadyUpToDate →
            getGit g s fs o' =
              ([call_Open s fs; call_Worktree repo; call_Pull wt], Done (Some repo)))
    as Hok.
  { intros o' Hpull. unfold getGit. rewrite Hopen, Hwt.
    destruct Hpull as [->| ->]; [done|]. by rewrite decide_True. }
  split; [by apply Hok|]. split.
  - intros err Hpull Hne. unfold getGit. rewrite Hopen, Hwt, Hpull.
    by rewrite decide_False.
  - intros wptGitPath runs order -> -> Hpull. unfold main.
    by rewrite (Hok _ Hpull).
Qed.

End CommitIndexFacts.

(** ** Sorting through [sort.Interface] *)

Section sort_Interface_facts.
Context {T : Type} `{I : sort_Interface T}.

Lemma swaps_to_trans (d1 d2 d3 : T) :
  swaps_to d1 d2 → swaps_to d2 d3 → swaps_to d1 d3.
Proof. induction 1; eauto using swaps_step. Qed.

Lemma lawful_swaps_to (d d' : T) : lawful d → swaps_to d d' → lawful d'.
Proof.
  intros [HLen HSwap Hirr Htr Hinc] Hd. split.
  - intros d'' i j Hd'. apply HLen. by eapply swaps_to_trans.
  - intros d'' i j a b Hd'. apply HSwap. by eapply swaps_to_trans.
  - intros d'' i Hd'. apply Hirr. by eapply swaps_to_trans.
  - intros d'' i j k Hd'. apply Htr. by eapply swaps_to_trans.
  - intros d'' i j k Hd'. apply Hinc. by eapply swaps_to_trans.
Qed.

Lemma swaps_to_Len (d d' : T) : lawful d → swaps_to d d' → Len d' = Len d.
Proof.
  intros Hlaw Hd. induction Hd as [d|d i j d' Hi Hj Hd IH]; [done|].
  rewrite IH.
  - apply (lawful_Len d Hlaw); [constructor|done..].
  - apply (lawful_swaps_to d); [done|].
    exact (swaps_step d i j _ Hi Hj (swaps_done _)).
Qed.

Lemma lawful_asymmetric (d : T) i j :
  lawful d → (i < Len d)%nat → (j < Len d)%nat →
  Less d i j = true → Less d j i = false.
Proof.
  intros Hlaw Hi Hj Hij. destruct (Less d j i) eqn:Hji; [|done].
  pose proof (lawful_transitive d Hlaw d i j i (swaps_done d) Hi Hj Hi Hij Hji) as Hii.
  by rewrite (lawful_irreflexive d Hlaw d i (swaps_done d) Hi) in Hii.
Qed.

Lemma sift_spec (j : nat) : ∀ (d : T) (k : nat),
  lawful d → (j ≤ k)%nat → (k < Len d)%nat → ascending_but d j k →
  swaps_to d (sift d j) ∧ ascending_below (sift d j) (S k).
Proof.
  induction j as [|j IH]; intros d k Hlaw Hjk Hk Hbut; simpl.
  { split; [constructor|]. intros a b Hab Hb. apply Hbut; lia. }
  destruct (Less d (S j) j) eqn:Hless.
  - assert (swaps_to d (Swap d (S j) j)) as Hstep.
    { apply (swaps_step d (S j) j); [lia..|constructor]. }
    assert (Len (Swap d (S j) j) = Len d) as HLen.
    { apply (lawful_Len d Hlaw); [constructor|lia..]. }
    destruct (IH (Swap d (S j) j) k) as [Hto Hasc].
    + by eapply lawful_swaps_to.
    + lia.
    + lia.
    + intros a b Hab Hb Hbj.
      rewrite (lawful_Swap d Hlaw d (S j) j b a (swaps_done d)) by lia.
      unfold transpose. repeat case_decide; subst; try lia.
      * apply lawful_asymmetric; [done|lia..|done].
      * apply Hbut; lia.
      * apply Hbut; lia.
      * apply Hbut; lia.
      * apply Hbut; lia.
    + split; [|done]. by eapply swaps_to_trans.
  - split; [constructor|]. intros a b Hab Hb.
    destruct (decide (b = S j)) as [->|Hbj]; [|apply Hbut; lia].
    destruct (decide (a = j)) as [->|Haj]; [done|].
    apply (lawful_incomparable d Hlaw d (S j) j a (swaps_done d)); [lia..|done|].
    apply Hbut; lia.
Qed.

Lemma sift_from_spec (count : nat) : ∀ (d : T) (i : nat),
  lawful d → (i + count = Len d)%nat → ascending_below d i →
  swaps_to d (sift_from d i count) ∧
  ascending_below (sift_from d i count) (i + count).
Proof.
  induction count as [|count IH]; intros d i Hlaw Hlen Hasc; simpl.
  { split; [constructor|]. by rewrite Nat.add_0_r. }
  destruct (sift_spec i d i) as [Hto Hasc']; [done|lia|lia| |].
  { intros a b Hab Hb Hbi. apply Hasc; lia. }
  pose proof (swaps_to_Len d _ Hlaw Hto) as HLen.
  destruct (IH (sift d i) (S i)) as [Hto' Hasc''].
  - by eapply lawful_swaps_to.
  - lia.
  - done.
  - split; [by eapply swaps_to_trans|].
    by replace (i + S count)%nat with (S i + count)%nat by lia.
Qed.

End sort_Interface_facts.

(** The insertion sort gives what [sort.Sort] gives. *)
Lemma insertionSort_sorts : sorts insertionSort.
Proof.
  intros T I data Hlaw. unfold insertionSort.
  destruct (Len data) as [|n] eqn:HLen; simpl.
  { split; [constructor|]. intros i j. lia. }
  rewrite Nat.sub_0_r.
  destruct (sift_from_spec n data 1 Hlaw) as [Hto Hasc]; [lia| |].
  { intros a b Hab Hb. lia. }
  split; [done|]. intros i j [Hij Hj].
  rewrite (swaps_to_Len data _ Hlaw Hto), HLen in Hj.
  apply Hasc; lia.
Qed.

(** ** [byHash] as a [sort.Interface] *)

Lemma Swap_lookup (c : list Commit) (i j a : nat) :
  (i < length c)%nat → (j < length c)%nat →
  @Swap (list Commit) byHash_Interface c i j !! a = c !! transpose i j a.
Proof.
  intros Hi Hj. cbn [Swap byHash_Interface]. unfold byHash, transpose.
  destruct (decide (a = j)) as [->|Haj].
  - rewrite list_lookup_insert_eq by (by rewrite length_insert).
    case_decide; subst; symmetry; by apply list_lookup_lookup_total_lt.
  - rewrite list_lookup_insert_ne by done.
    destruct (decide (a = i)) as [->|Hai].
    + rewrite list_lookup_insert_eq by done.
      symmetry. by apply list_lookup_lookup_total_lt.
    + by rewrite list_lookup_insert_ne.
Qed.

(** [byHash] gives [sort.Sort] what it asks for. *)
Lemma byHash_lawful (c : byHash) : lawful c.
Proof.
  unfold byHash in *. split.
  - intros d i j _ _ _. cbn [Len Swap byHash_Interface]. by rewrite !length_insert.
  - intros d i j a b _ Hi Hj _ _. cbn [Len Less byHash_Interface] in *.
    rewrite !list_lookup_total_alt.
    by rewrite (Swap_lookup d i j a Hi Hj), (Swap_lookup d i j b Hi Hj).
  - intros d i _ _. cbn [Less byHash_Interface]. by rewrite Compare_refl.
  - intros d i j k _ _ _ _. cbn [Less byHash_Interface].
    intros Hij Hjk. apply Z.eqb_eq in Hij, Hjk. apply Z.eqb_eq.
    by eapply Compare_lt_trans.
  - intros d i j k _ _ _ _ Hij Hjk.
    apply Less_false. apply Less_false in Hij, Hjk. by etrans.
Qed.

Lemma byHash_swaps_to_permutes (c c' : byHash) : swaps_to c c' → c' ≡ₚ c.
Proof.
  induction 1 as [c|c i j c' Hi Hj Hto IH]; [done|].
  rewrite IH. by apply Swap_permutes.
Qed.

(** C5: when [sort.Sort] does on every lawful [sort.Interface] what its
    documentation says, the index built from a repository holds the commits
    the repository's iterator handed out, each once, sorted ascending by full
    hash under unsigned byte-wise lexicographic comparison for every adjacent
    pair of positions; and the order is determined by the commit set: two
    enumerations of the same commits yield the same sequence of hashes, and
    the same sequence of commits as the hashes identify the commits. *)
Theorem buildIndex_sorted_by_hash (sort_Sort : ∀ T, sort_Interface T → T → T)
    repo commits :
  sorts sort_Sort →
  buildIndex (sort_Sort byHash byHash_Interface) repo = Done commits →
  (∃ iter, CommitObjects repo = inl iter ∧ iter_end iter = io_EOF ∧
           commits ≡ₚ iter_pending iter ∧
           length commits = length (iter_pending iter)) ∧
  (∀ i a b, commits !! i = Some a → commits !! S i = Some b →
     bytes_le (Hash a) (Hash b)) ∧
  (∀ repo' gathered gathered' commits',
     gatherCommits repo = Done gathered →
     gatherCommits repo' = Done gathered' →
     gathered' ≡ₚ gathered →
     buildIndex (sort_Sort byHash byHash_Interface) repo' = Done commits' →
     Hash <$> commits' = Hash <$> commits ∧
     (NoDup (Hash <$> gathered) → commits' = commits)).
Proof.
  intros Hsorts Hb.
  assert (∀ data : byHash, sort_Sort byHash byHash_Interface data ≡ₚ data) as Hperm.
  { intros data. apply byHash_swaps_to_permutes.
    apply (Hsorts byHash byHash_Interface data (byHash_lawful data)). }
  assert (∀ data : byHash,
            StronglySorted hash_le (sort_Sort byHash byHash_Interface data)) as Hsorted.
  { intros data. apply sort_Sort_StronglySorted. intros data' i j.
    apply (Hsorts byHash byHash_Interface data' (byHash_lawful data')). }
  apply buildIndex_Done in Hb as (g & Hg & ->).
  split; [|split].
  - apply gatherCommits_Done in Hg as (iter & Hiter & Hend & <-).
    exists iter. split; [done|]. split; [done|]. by rewrite Hperm.
  - intros i a b Ha Hb.
    by apply (StronglySorted_lookup_lt hash_le _ i (S i) a b (Hsorted g)); [..|lia].
  - intros repo' gathered gathered' commits' Hg1 Hg2 Hp Hb'.
    rewrite Hg in Hg1. injection Hg1 as ->.
    apply buildIndex_Done in Hb' as (g' & Hg' & ->).
    rewrite Hg2 in Hg'. injection Hg' as <-.
    assert (sort_Sort byHash byHash_Interface gathered'
              ≡ₚ sort_Sort byHash byHash_Interface gathered) as Hpp.
    { by rewrite !Hperm. }
    split.
    + apply (StronglySorted_unique bytes_le).
      * apply StronglySorted_Hash, Hsorted.
      * apply StronglySorted_Hash, Hsorted.
      * by rewrite Hpp.
    + intros Hnd. apply (StronglySorted_unique_strong hash_le);
        [|apply Hsorted..|done].
      intros x1 x2 H1 H2 H12 H21.
      apply (NoDup_Hash_inj gathered); [done| | |].
      * by rewrite <- Hp, <- (Hperm gathered').
      * by rewrite <- (Hperm gathered).
      * by apply (anti_symm bytes_le).
Qed.

(** C5 on the commits A and B, enumerated in either order and sorted by the
    insertion sort through [byHash]. *)
Lemma buildIndex_sorted_witness :
  buildIndex (insertionSort byHash byHash_Interface) (repo_of [commit_B; commit_A]) =
    Done [commit_A; commit_B] ∧
  [commit_A; commit_B] ≡ₚ [commit_B; commit_A] ∧
  bytes_le (Hash commit_A) (Hash commit_B) ∧
  insertionSort byHash byHash_Interface [commit_A; commit_B] = [commit_A; commit_B].
Proof.
  destruct (buildIndex_sorted_by_hash insertionSort
              (repo_of [commit_B; commit_A]) [commit_A; commit_B]
              insertionSort_sorts eq_refl)
    as ((iter & Hiter & _ & Hperm & _) & Hadj & Hdet).
  injection Hiter as <-.
  split; [reflexivity|]. split; [exact Hperm|]. split.
  - by apply (Hadj 0%nat).
  - destruct (Hdet (repo_of [commit_A; commit_B]) [commit_B; commit_A]
                [commit_A; commit_B]
                (insertionSort byHash byHash_Interface [commit_A; commit_B])
                eq_refl eq_refl (perm_swap _ _ _) eq_refl) as [_ Heq].
    apply Heq. by apply (bool_decide_unpack _).
Defined.

(** ** The program on the small repository *)

Lemma merge_sort_byHash_permutes data : merge_sort_byHash data ≡ₚ data.
Proof. apply merge_sort_Permutation. Qed.

Lemma merge_sort_byHash_ascending data i j :
  (i < j < Len (merge_sort_byHash data))%nat →
  Less (merge_sort_byHash data) j i = false.
Proof.
  intros [Hij Hj]. apply Less_false. simpl in Hj.
  apply (StronglySorted_lookup_lt hash_le (merge_sort_byHash data) i j); [| | |done].
  - apply (StronglySorted_merge_sort hash_le).
  - apply list_lookup_lookup_total_lt. lia.
  - by apply list_lookup_lookup_total_lt.
Qed.

(** A suffix above every suffix of a non-empty slice is reported at the last
    position, not as -1. *)
Lemma findHash_above_all (commits : list Commit) (shortHash : list byte) :
  length commits ≠ 0%nat →
  Forall (λ c, bytes.Compare (last5 (Hash c)) shortHash = -1) commits →
  findHash commits shortHash = Z.of_nat (length commits) - 1.
Proof.
  induction commits as [commits IH] using slice_length_ind. intros Hlen Hall.
  rewrite findHash_body. cbv zeta.
  rewrite (proj2 (Nat.eqb_neq _ _) Hlen).
  pose proof (mid_lt commits Hlen) as Hmid.
  rewrite Forall_lookup in Hall.
  rewrite (Hall _ _ (lookup_mid commits Hlen)). cbn [Z.eqb Pos.eqb].
  destruct (decide (length (drop (length commits / 2 + 1) commits) = 0%nat)) as [E|E].
  - apply length_zero_iff_nil in E as E'. rewrite E', findHash_nil.
    rewrite length_drop in E. lia.
  - rewrite IH; [rewrite length_drop; lia|rewrite length_drop; lia|done|].
    apply Forall_lookup. intros k c Hk. rewrite lookup_drop in Hk. by eapply Hall.
Qed.

(** C1: a miss that descends into the upper half is not reported as -1.  On
    the index built from commits A and B, sorted by hash and by suffix alike,
    the suffix 00 00 00 00 30, which no commit has, is answered with position
    1, and the record asking for it is given commit B. *)
Theorem findHash_upper_miss_returns_position :
  Forall wf_commit [commit_A; commit_B] ∧
  buildIndex merge_sort_byHash (repo_of [commit_B; commit_A]) =
    Done [commit_A; commit_B] ∧
  Sorted suffix_le [commit_A; commit_B] ∧
  hex.DecodeString (Revision run_high) = inl [x00; x00; x00; x00; x30] ∧
  Forall (λ c, last5 (Hash c) ≠ [x00; x00; x00; x00; x30]) [commit_A; commit_B] ∧
  findHash [commit_A; commit_B] [x00; x00; x00; x00; x30] = 1 ∧
  resolve [commit_A; commit_B] run_high = Some commit_B.
Proof.
  split; [by repeat constructor|].
  split; [reflexivity|]. split; [by apply (bool_decide_unpack _)|].
  split; [reflexivity|]. split; [by apply (bool_decide_unpack _)|].
  assert (findHash [commit_A; commit_B] [x00; x00; x00; x00; x30] = 1) as H.
  { rewrite findHash_above_all; [done|done|]. by repeat constructor. }
  split; [done|]. unfold resolve.
  assert (hex.DecodeString (Revision run_high) = inl [x00; x00; x00; x00; x30])
    as -> by reflexivity.
  cbv zeta. by rewrite H.
Qed.

Lemma getGit_clone_nil g s fs o cloned :
  git_Open g s fs = inr git_ErrRepositoryNotExists →
  git_Clone g s fs o = inl cloned →
  getGit g s fs o = ([call_Open s fs; call_Clone s fs o], Done None).
Proof. intros Hopen Hclone. unfold getGit. by rewrite Hopen, Hclone. Qed.

(** C2: with no mirror at the local path, [getGit] clones and then returns
    nil in place of the cloned repository, and [main] panics in
    [getCommitForRuns] on the nil repository. *)
Theorem getGit_fresh_clone_returns_nil :
  getGit (fresh_host (repo_of [commit_B; commit_A])) ".wpt/.git" ".wpt"
      {| URL := "https://github.com/w3c/web-platform-tests.git" |} =
    ([call_Open ".wpt/.git" ".wpt";
      call_Clone ".wpt/.git" ".wpt"
        {| URL := "https://github.com/w3c/web-platform-tests.git" |}],
     Done None) ∧
  main merge_sort_byHash (fresh_host (repo_of [commit_B; commit_A])) ".wpt"
      [run_A] [(0%nat, run_A)] =
    Panic nil_pointer_dereference.
Proof.
  split.
  - by apply (getGit_clone_nil _ _ _ _ (repo_of [commit_B; commit_A])).
  - unfold main. by rewrite (getGit_clone_nil _ _ _ _ (repo_of [commit_B; commit_A])).
Qed.

(** C3, as stated, fails: the index built from commits A, B and C is in the
    order A, B, C of their hashes, commit C is in it, and the lookup of the
    trailing 5 bytes of C's hash returns -1. *)
Lemma findHash_misses_existing_suffix :
  Forall wf_commit [commit_A; commit_B; commit_C] ∧
  buildIndex merge_sort_byHash (repo_of [commit_C; commit_A; commit_B]) =
    Done [commit_A; commit_B; commit_C] ∧
  StronglySorted hash_le [commit_A; commit_B; commit_C] ∧
  commit_C ∈ [commit_A; commit_B; commit_C] ∧
  findHash [commit_A; commit_B; commit_C] (last5 (Hash commit_C)) = -1.
Proof.
  split; [by repeat constructor|].
  split; [reflexivity|]. split; [by apply (bool_decide_unpack _)|].
  split; [by apply (bool_decide_unpack _)|].
  rewrite findHash_body. cbv zeta. simpl.
  rewrite findHash_body. cbv zeta. simpl.
  apply findHash_nil.
Qed.

(** The goroutines of two records, the second completing first. *)
Lemma schedule_swapped (r0 r1 : TestRun) :
  schedule [r0; r1] [(1%nat, r1); (0%nat, r0)].
Proof. unfold schedule, spawned. simpl. apply perm_swap. Qed.

(** C3 (as amended) on the index of A and B, at commit A. *)
Lemma lookup_existing_suffix_witness :
  ∃ c, 0 ≤ findHash (merge_sort_byHash [commit_B; commit_A]) (last5 (Hash commit_A)) ∧
       index (merge_sort_byHash [commit_B; commit_A])
         (findHash (merge_sort_byHash [commit_B; commit_A]) (last5 (Hash commit_A)))
         = Some c ∧
       c ∈ merge_sort_byHash [commit_B; commit_A] ∧
       last5 (Hash c) = last5 (Hash commit_A) ∧
       ((∀ c', c' ∈ merge_sort_byHash [commit_B; commit_A] →
               last5 (Hash c') = last5 (Hash commit_A) → c' = commit_A) →
        c = commit_A).
Proof.
  apply (lookup_existing_suffix_when_suffix_sorted merge_sort_byHash
           merge_sort_byHash_permutes (repo_of [commit_B; commit_A])
           [commit_B; commit_A]).
  - reflexivity.
  - reflexivity.
  - by apply (bool_decide_unpack _).
  - by apply (bool_decide_unpack _).
Defined.

(** C4 on two records, one found and one missed, completing in reverse. *)
Lemma getCommitForRuns_slots_witness :
  ∃ res,
    getCommitForRuns merge_sort_byHash (Some (repo_of [commit_B; commit_A]))
      [run_A; run_low] [(1%nat, run_low); (0%nat, run_A)] = Done res ∧
    found res = [Some commit_A; None].
Proof.
  destruct (getCommitForRuns_slots_by_position merge_sort_byHash
              (repo_of [commit_B; commit_A]) [commit_A; commit_B]
              [run_A; run_low] [(1%nat, run_low); (0%nat, run_A)]
              eq_refl (schedule_swapped run_A run_low))
    as (Hslots & Hdone & _).
  destruct Hdone as [res Hres].
  { repeat constructor; by apply (bool_decide_unpack _). }
  exists res. split; [done|].
  destruct (Hslots res Hres) as [Hlen Hi].
  pose proof (Hi 0%nat run_A eq_refl) as H0.
  pose proof (Hi 1%nat run_low eq_refl) as H1.
  destruct (found res) as [|a [|b [|? ?]]]; simpl in *; try done.
  injection H0 as ->. injection H1 as ->. reflexivity.
Defined.

(** C6 on a revision of eight characters, whose goroutine completes first. *)
Lemma malformed_revision_witness :
  ∃ f, getCommitForRuns merge_sort_byHash (Some (repo_of [commit_B; commit_A]))
         [run_A; run_short] [(1%nat, run_short); (0%nat, run_A)] = Fatal f.
Proof.
  destruct (malformed_revision_aborts_run merge_sort_byHash) as (_ & _ & Hrun & _).
  apply (Hrun _ _ _ 1%nat run_short (schedule_swapped run_A run_short) eq_refl).
  right. left. exists [x00; x00; x00; x10]. split; [reflexivity|]. simpl. lia.
Defined.

(** C7 on a suffix below every suffix of the index. *)
Lemma lookup_miss_witness :
  ∃ res,
    getCommitForRuns merge_sort_byHash (Some (repo_of [commit_B; commit_A]))
      [run_A; run_low] [(1%nat, run_low); (0%nat, run_A)] = Done res ∧
    found res !! 1%nat = Some None ∧
    "Failed to find revision for 0000000001" ∈ logged res.
Proof.
  destruct (lookup_miss_does_not_abort merge_sort_byHash
              (repo_of [commit_B; commit_A]) [commit_A; commit_B]
              [run_A; run_low] [(1%nat, run_low); (0%nat, run_A)]
              1%nat run_low [x00; x00; x00; x00; x01]
              eq_refl (schedule_swapped run_A run_low) eq_refl eq_refl eq_refl)
    as (_ & _ & _ & Hdone & Hres).
  { rewrite findHash_body. cbv zeta. simpl.
    rewrite findHash_body. cbv zeta. simpl. apply findHash_nil. }
  destruct Hdone as [res Hrun].
  { intros [|[|j]] run' Hj Hrun'; simpl in Hrun'; try done.
    injection Hrun' as <-. by apply (bool_decide_unpack _). }
  exists res. split; [done|]. destruct (Hres res Hrun) as (H1 & H2 & _). done.
Defined.

(** C8 on a mirror whose pull reports "already up to date". *)
Lemma getGit_existing_mirror_witness :
  getGit (mirror_host (repo_of [commit_B; commit_A]) (Some git_NoErrAlreadyUpToDate))
      ".wpt/.git" ".wpt"
      {| URL := "https://github.com/w3c/web-platform-tests.git" |} =
    ([call_Open ".wpt/.git" ".wpt";
      call_Worktree (repo_of [commit_B; commit_A]);
      call_Pull {| wt_root := ".wpt" |}],
     Done (Some (repo_of [commit_B; commit_A]))).
Proof.
  apply (getGit_existing_mirror_pull merge_sort_byHash
           (mirror_host (repo_of [commit_B; commit_A]) (Some git_NoErrAlreadyUpToDate))
           ".wpt/.git" ".wpt" _ (repo_of [commit_B; commit_A]) {| wt_root := ".wpt" |}
           eq_refl eq_refl).
  by right.
Defined.

(** ** Further properties of the code *)

(** *** [byHash] *)

(** X1: on positions within the slice, [Swap] keeps the length, puts the
    element of each of the two positions at the other, leaves every other
    position as it was, rearranges the slice, and undoes itself when
    repeated. *)
Theorem byHash_Swap_exchanges (c : byHash) (i j : nat) :
  (i < Len c)%nat → (j < Len c)%nat →
  Len (Swap c i j) = Len c ∧
  Swap c i j !! i = c !! j ∧
  Swap c i j !! j = c !! i ∧
  (∀ k, k ≠ i → k ≠ j → Swap c i j !! k = c !! k) ∧
  Swap c i j ≡ₚ c ∧
  Swap (Swap c i j) i j = c.
Proof.
  intros Hi Hj. simpl in Hi, Hj. unfold byHash in *.
  assert (∀ d : list Commit, (i < length d)%nat → (j < length d)%nat →
            Swap d i j !! i = d !! j ∧ Swap d i j !! j = d !! i ∧
            ∀ k, k ≠ i → k ≠ j → Swap d i j !! k = d !! k) as Hlook.
  { intros d Hdi Hdj. cbn [Swap byHash_Interface]. split; [|split].
    - destruct (decide (i = j)) as [->|Hij].
      + rewrite list_lookup_insert_eq by (by rewrite length_insert).
        symmetry. by apply list_lookup_lookup_total_lt.
      + rewrite list_lookup_insert_ne by done.
        rewrite list_lookup_insert_eq by done.
        symmetry. by apply list_lookup_lookup_total_lt.
    - rewrite list_lookup_insert_eq by (by rewrite length_insert).
      symmetry. by apply list_lookup_lookup_total_lt.
    - intros k Hki Hkj. by rewrite !list_lookup_insert_ne. }
  destruct (Hlook c Hi Hj) as (Hii & Hjj & Hkk).
  assert (length (Swap c i j) = length c) as Hlen.
  { cbn [Swap byHash_Interface]. by rewrite !length_insert. }
  split; [done|]. split; [done|]. split; [done|]. split; [done|].
  split; [by apply Swap_permutes|].
  destruct (Hlook (Swap c i j)) as (Hii' & Hjj' & Hkk'); [lia..|].
  apply list_eq. intros k.
  destruct (decide (k = i)) as [->|Hki]; [by rewrite Hii', Hjj|].
  destruct (decide (k = j)) as [->|Hkj]; [by rewrite Hjj', Hii|].
  by rewrite Hkk', Hkk.
Qed.

Lemma byHash_Swap_witness :
  Swap [commit_A; commit_B; commit_C] 0 2 = [commit_C; commit_B; commit_A] ∧
  Swap [commit_C; commit_B; commit_A] 0 2 ≡ₚ [commit_C; commit_B; commit_A].
Proof.
  split; [reflexivity|].
  apply (byHash_Swap_exchanges [commit_C; commit_B; commit_A] 0 2); simpl; lia.
Defined.

(** X2: on positions within the slice, [Less] is a strict weak order: no
    element is less than itself, two elements are never less than each other,
    it is transitive, and two elements neither of which is less than the other
    have the same hash. *)
Theorem byHash_Less_strict_weak_order (c : byHash) :
  (∀ i, (i < Len c)%nat → Less c i i = false) ∧
  (∀ i j, (i < Len c)%nat → (j < Len c)%nat →
     Less c i j = true → Less c j i = false) ∧
  (∀ i j k, (i < Len c)%nat → (j < Len c)%nat → (k < Len c)%nat →
     Less c i j = true → Less c j k = true → Less c i k = true) ∧
  (∀ i j, (i < Len c)%nat → (j < Len c)%nat →
     Less c i j = false → Less c j i = false →
     Hash (c !!! i) = Hash (c !!! j)).
Proof.
  unfold byHash in *. simpl. split; [|split; [|split]].
  - intros i _. by rewrite Compare_refl.
  - intros i j _ _ Hij. apply Z.eqb_eq in Hij. apply Z.eqb_neq.
    rewrite (Compare_antisym (Hash (c !!! i)) (Hash (c !!! j))). lia.
  - intros i j k _ _ _ Hij Hjk. apply Z.eqb_eq in Hij, Hjk. apply Z.eqb_eq.
    by eapply Compare_lt_trans.
  - intros i j _ _ Hij Hji. apply Z.eqb_neq in Hij, Hji.
    apply Compare_eq.
    rewrite (Compare_antisym (Hash (c !!! i)) (Hash (c !!! j))) in Hji.
    destruct (Compare_range (Hash (c !!! i)) (Hash (c !!! j))) as [H|[H|H]]; lia.
Qed.

(** *** [getGit] *)

(** X3: [getGit] never panics; it returns a repository exactly when the
    mirror could be opened, its worktree obtained and the pull answered nil or
    "already up to date", and then it is the opened repository; it returns nil
    exactly when there was no mirror and the clone succeeded. *)
Theorem getGit_outcomes (g : git_Host) (s : Storer) (fs : Filesystem) (o : CloneOptions) :
  (∀ p, (getGit g s fs o).2 ≠ Panic p) ∧
  (∀ repo, (getGit g s fs o).2 = Done (Some repo) ↔
     git_Open g s fs = inl repo ∧
     ∃ wt, repo_Worktree g repo = inl wt ∧
           (wt_Pull g wt = None ∨ wt_Pull g wt = Some git_NoErrAlreadyUpToDate)) ∧
  ((getGit g s fs o).2 = Done None ↔
     git_Open g s fs = inr git_ErrRepositoryNotExists ∧
     ∃ cloned, git_Clone g s fs o = inl cloned).
Proof.
  unfold getGit.
  destruct (git_Open g s fs) as [repo|err] eqn:Hopen.
  - destruct (repo_Worktree g repo) as [wt|err] eqn:Hwt.
    + destruct (wt_Pull g wt) as [err|] eqn:Hpull; [case_decide|]; simpl.
      * subst. split; [done|]. split; [|split; [done|by intros [? _]]].
        intros r. split.
        -- intros [= <-]. split; [done|]. exists wt. auto.
        -- by intros [[= <-] _].
      * split; [done|]. split; [|split; [done|by intros [? _]]].
        intros r. split; [done|]. intros [[= <-] (wt' & Hwt' & Hp)].
        rewrite Hwt in Hwt'. injection Hwt' as <-.
        rewrite Hpull in Hp. destruct Hp as [|[=]]; congruence.
      * split; [done|]. split; [|split; [done|by intros [? _]]].
        intros r. split.
        -- intros [= <-]. split; [done|]. exists wt. auto.
        -- by intros [[= <-] _].
    + simpl. split; [done|]. split; [|split; [done|by intros [? _]]].
      intros r. split; [done|]. intros [[= <-] (wt' & Hwt' & _)]. congruence.
  - case_decide as Herr.
    + subst. destruct (git_Clone g s fs o) as [cloned|err'] eqn:Hclone; simpl.
      * split; [done|]. split; [intros r; split; [done|by intros [? _]]|].
        split; [intros _; eauto|done].
      * split; [done|]. split; [intros r; split; [done|by intros [? _]]|].
        split; [done|]. by intros [_ [? ?]].
    + simpl. split; [done|]. split; [intros r; split; [done|by intros [? _]]|].
      split; [done|]. intros [[= ->] _]. done.
Qed.

(** Go through an explicit list of calls for the one [H] says is in it. *)
Ltac in_calls H :=
  repeat (apply elem_of_cons in H as [H|H]; [try discriminate H|]);
  try (by apply elem_of_nil in H).

(** X4: the calls [getGit] makes begin with [git.Open]; it clones exactly
    when [git.Open] answered that the repository does not exist, and then
    neither asks for a worktree nor pulls; it pulls only on the worktree of
    the repository it opened. *)
Theorem getGit_calls (g : git_Host) (s : Storer) (fs : Filesystem) (o : CloneOptions) :
  (∃ rest, (getGit g s fs o).1 = call_Open s fs :: rest) ∧
  ((∃ s' fs' o', call_Clone s' fs' o' ∈ (getGit g s fs o).1) ↔
     git_Open g s fs = inr git_ErrRepositoryNotExists) ∧
  (∀ s' fs' o', call_Clone s' fs' o' ∈ (getGit g s fs o).1 →
     (s', fs', o') = (s, fs, o) ∧
     ∀ repo wt, (call_Worktree repo ∉ (getGit g s fs o).1) ∧
                (call_Pull wt ∉ (getGit g s fs o).1)) ∧
  (∀ wt, call_Pull wt ∈ (getGit g s fs o).1 →
     ∃ repo, git_Open g s fs = inl repo ∧ repo_Worktree g repo = inl wt ∧
             call_Worktree repo ∈ (getGit g s fs o).1).
Proof.
  unfold getGit.
  destruct (git_Open g s fs) as [repo|err] eqn:Hopen;
    [destruct (repo_Worktree g repo) as [wt|err] eqn:Hwt;
       [destruct (wt_Pull g wt) as [err|]; [case_decide|]|]
    |case_decide as Herr; [subst err; destruct (git_Clone g s fs o)|]];
    simpl; (split; [eauto|]); (split; [|split]).
  all: try (split;
    [intros (s' & fs' & o' & Hin); in_calls Hin; done
    |intros Heq; try congruence; exists s, fs, o; by repeat constructor]).
  all: try (intros s' fs' o' Hin; in_calls Hin;
    (injection Hin as -> -> ->; split; [done|];
     intros repo0 wt0; split; intros Hin'; in_calls Hin')).
  all: intros wt0 Hin; in_calls Hin;
    (injection Hin as ->; exists repo; split; [done|]; split; [done|];
     by repeat constructor).
Qed.

(** X5: when [getGit] ends fatally, the error it hands to [log.Fatal] is the
    one its last call answered: nothing is called after a call that failed. *)
Theorem getGit_fatal_is_last_call (g : git_Host) (s : Storer) (fs : Filesystem)
    (o : CloneOptions) (f : fatal) :
  (getGit g s fs o).2 = Fatal f →
  ∃ err, f = log_Fatal err ∧
    match last (getGit g s fs o).1 with
    | Some (call_Open s' fs') => git_Open g s' fs' = inr err
    | Some (call_Clone s' fs' o') => git_Clone g s' fs' o' = inr err
    | Some (call_Worktree repo) => repo_Worktree g repo = inr err
    | Some (call_Pull wt) => wt_Pull g wt = Some err
    | None => False
    end.
Proof.
  unfold getGit.
  destruct (git_Open g s fs) as [repo|err] eqn:Hopen.
  - destruct (repo_Worktree g repo) as [wt|err] eqn:Hwt.
    + destruct (wt_Pull g wt) as [err|] eqn:Hpull; [case_decide|]; simpl; try done.
      intros [= <-]. by exists err.
    + simpl. intros [= <-]. by exists err.
  - case_decide as Herr.
    + subst. destruct (git_Clone g s fs o) as [cloned|err] eqn:Hclone; simpl; [done|].
      intros [= <-]. by exists err.
    + simpl. intros [= <-]. by exists err.
Qed.

Lemma getGit_fatal_witness :
  ∃ err, log_Fatal (other_error "connection reset") = log_Fatal err ∧
         wt_Pull (mirror_host (repo_of [commit_A])
                    (Some (other_error "connection reset")))
           {| wt_root := ".wpt" |} = Some err.
Proof.
  apply (getGit_fatal_is_last_call
           (mirror_host (repo_of [commit_A]) (Some (other_error "connection reset")))
           ".wpt/.git" ".wpt" {| URL := "" |}).
  reflexivity.
Defined.

(** *** [findHash] *)

Lemma findHash_below_all (commits : list Commit) (shortHash : list byte) :
  Forall (λ c, bytes.Compare (last5 (Hash c)) shortHash = 1) commits →
  findHash commits shortHash = -1.
Proof.
  induction commits as [commits IH] using slice_length_ind. intros Hall.
  apply findHash_minus_one.
  destruct (decide (length commits = 0%nat)) as [|Hlen]; [by left|right].
  pose proof (mid_lt commits Hlen) as Hmid.
  split.
  - rewrite Forall_lookup in Hall. apply (Hall _ _ (lookup_mid commits Hlen)).
  - apply IH; [rewrite length_take; lia|]. by apply Forall_take.
Qed.

(** X6: whatever the order of the slice, a suffix below the trailing bytes of
    every commit is answered with -1, and a suffix above those of every commit
    of a non-empty slice is answered with the last position. *)
Theorem findHash_one_sided (commits : list Commit) (shortHash : list byte) :
  (Forall (λ c, bytes.Compare (last5 (Hash c)) shortHash = 1) commits →
   findHash commits shortHash = -1) ∧
  (length commits ≠ 0%nat →
   Forall (λ c, bytes.Compare (last5 (Hash c)) shortHash = -1) commits →
   findHash commits shortHash = Z.of_nat (length commits) - 1).
Proof. split; [apply findHash_below_all | apply findHash_above_all]. Qed.

(** X7: whatever the order of the slice, the commit at a position
    [findHash] returns never has trailing bytes above the suffix asked for. *)
Theorem findHash_never_above (commits : list Commit) (shortHash : list byte) :
  findHash commits shortHash = -1 ∨
  ∃ c, index commits (findHash commits shortHash) = Some c ∧
       bytes.Compare (last5 (Hash c)) shortHash ≠ 1.
Proof.
  induction commits as [commits IH] using slice_length_ind.
  rewrite (findHash_body commits). cbv zeta.
  destruct (Nat.eqb_spec (length commits) 0) as [Hlen|Hlen]; [by left|].
  pose proof (mid_lt commits Hlen) as Hmid.
  pose proof (lookup_mid commits Hlen) as Hm.
  set (mid := (length commits / 2)%nat) in *.
  set (m := commits !!! mid) in *.
  destruct (Compare_range (last5 (Hash m)) shortHash) as [E|[E|E]];
    rewrite E; cbn [Z.eqb Pos.eqb].
  - pose proof (findHash_bounds (drop (mid + 1) commits) shortHash) as Hb.
    right. destruct (IH (drop (mid + 1) commits)) as [Hr|(c & Hc & Hle)].
    { rewrite length_drop. lia. }
    + rewrite Hr. exists m. split; [|lia].
      rewrite index_nonneg by lia. rewrite <- Hm. f_equal. lia.
    + destruct (decide (findHash (drop (mid + 1) commits) shortHash = -1)) as [Hr|Hr].
      { rewrite Hr in Hc. done. }
      exists c. split; [|done].
      rewrite index_nonneg in Hc |- * by lia.
      rewrite lookup_drop in Hc. rewrite <- Hc. f_equal. lia.
  - right. exists m. split; [|lia].
    rewrite index_nonneg by lia. by rewrite Nat2Z.id.
  - pose proof (findHash_bounds (take mid commits) shortHash) as Hb.
    rewrite length_take in Hb.
    destruct (IH (take mid commits)) as [Hr|(c & Hc & Hle)].
    { rewrite length_take. lia. }
    + by left.
    + destruct (decide (findHash (take mid commits) shortHash = -1)) as [Hr|Hr].
      { by left. }
      right. exists c. split; [|done].
      rewrite index_nonneg in Hc |- * by lia.
      rewrite lookup_take_Some in Hc. tauto.
Qed.

Lemma suffixes_below_app shortHash l1 l2 :
  suffixes_below shortHash (l1 ++ l2) =
    (suffixes_below shortHash l1 + suffixes_below shortHash l2)%nat.
Proof. unfold suffixes_below. by rewrite filter_app, length_app. Qed.

Lemma suffixes_below_all shortHash l :
  Forall (λ c, bytes.Compare (last5 (Hash c)) shortHash = -1) l →
  suffixes_below shortHash l = length l.
Proof.
  unfold suffixes_below. induction 1 as [|c l Hc Hl IH]; [done|].
  rewrite filter_cons_True by done. simpl. by rewrite IH.
Qed.

Lemma suffixes_below_none shortHash l :
  Forall (λ c, bytes.Compare (last5 (Hash c)) shortHash ≠ -1) l →
  suffixes_below shortHash l = 0%nat.
Proof.
  unfold suffixes_below. induction 1 as [|c l Hc Hl IH]; [done|].
  by rewrite filter_cons_False.
Qed.

(** X8: on a slice that is non-decreasing in the trailing five bytes, a
    suffix that no commit has is answered with the position of the last commit
    whose trailing bytes are below it, that is, with the number of such
    commits less one, and so with -1 only when there is none. *)
Theorem findHash_absent_suffix (commits : list Commit) (shortHash : list byte) :
  Sorted suffix_le commits →
  Forall (λ c, last5 (Hash c) ≠ shortHash) commits →
  findHash commits shortHash = Z.of_nat (suffixes_below shortHash commits) - 1.
Proof.
  intros Hs. apply (Sorted_StronglySorted _) in Hs. revert Hs.
  induction commits as [commits IH] using slice_length_ind. intros Hs Habs.
  rewrite findHash_body. cbv zeta.
  destruct (Nat.eqb_spec (length commits) 0) as [Hlen|Hlen].
  { apply length_zero_iff_nil in Hlen as ->. done. }
  pose proof (mid_lt commits Hlen) as Hmid.
  pose proof (lookup_mid commits Hlen) as Hm.
  set (mid := (length commits / 2)%nat) in *.
  set (m := commits !!! mid) in *.
  replace (mid + 1)%nat with (S mid) by lia.
  pose proof (take_drop_middle commits mid m Hm) as Hsplit.
  assert (length (take mid commits) = mid) as Hlt by (rewrite length_take; lia).
  assert (suffixes_below shortHash commits =
            (suffixes_below shortHash (take mid commits) +
             (suffixes_below shortHash [m] +
              suffixes_below shortHash (drop (S mid) commits)))%nat) as ->.
  { rewrite <- Hsplit at 1. rewrite suffixes_below_app.
    change (m :: drop (S mid) commits) with ([m] ++ drop (S mid) commits).
    by rewrite suffixes_below_app. }
  rewrite <- Hsplit in Hs.
  apply StronglySorted_app in Hs as (Hlr & Hl & Hr).
  apply StronglySorted_cons in Hr as [Hmr Hr].
  destruct (Compare_range (last5 (Hash m)) shortHash) as [E|[E|E]];
    rewrite E; cbn [Z.eqb Pos.eqb].
  - (* the middle is below the suffix *)
    rewrite (IH (drop (S mid) commits));
      [|rewrite length_drop; lia|done|by apply Forall_drop].
    rewrite (suffixes_below_all _ (take mid commits)), (suffixes_below_all _ [m]).
    + rewrite Hlt. simpl. lia.
    + by repeat constructor.
    + apply Forall_forall. intros x Hx.
      specialize (Hlr x m Hx (list_elem_of_here _ _)).
      assert (bytes_le (last5 (Hash x)) shortHash) as Hxs.
      { etrans; [exact Hlr|]. unfold bytes_le. lia. }
      assert (last5 (Hash x) ≠ shortHash) as Hne.
      { rewrite Forall_forall in Habs. apply Habs.
        rewrite <- Hsplit. apply elem_of_app. by left. }
      unfold bytes_le in Hxs.
      destruct (Compare_range (last5 (Hash x)) shortHash) as [?|[H0|?]]; [done| |done].
      by apply Compare_eq in H0.
  - (* the middle would hold the suffix *)
    apply Compare_eq in E. rewrite Forall_forall in Habs.
    destruct (Habs m); [by eapply list_elem_of_lookup_2|done].
  - (* the middle is above the suffix *)
    rewrite (IH (take mid commits));
      [|rewrite length_take; lia|done|by apply Forall_take].
    rewrite (suffixes_below_none _ [m]), (suffixes_below_none _ (drop (S mid) commits)).
    + lia.
    + eapply Forall_impl; [exact Hmr|]. intros x Hmx Hx. simpl in Hmx.
      assert (bytes_le (last5 (Hash m)) shortHash) as Hms.
      { etrans; [exact Hmx|]. unfold bytes_le. lia. }
      done.
    + repeat constructor. lia.
Qed.

Lemma findHash_absent_witness :
  findHash [commit_A; commit_B] [x00; x00; x00; x00; x15] = 0.
Proof.
  rewrite (findHash_absent_suffix [commit_A; commit_B] [x00; x00; x00; x00; x15]).
  - reflexivity.
  - by apply (bool_decide_unpack _).
  - by apply (bool_decide_unpack _).
Defined.

(** *** [getCommitForRuns] *)

Lemma DecodeString_is_hex (s : string) (bs : list byte) :
  hex.DecodeString s = inl bs →
  Forall hex.is_hex (String.list_ascii_of_string s).
Proof.
  revert bs. induction s as [|p|p q rest IH] using string_pair_ind; intros bs; simpl.
  - by intros _.
  - by destruct (hex.fromHexChar p).
  - destruct (hex.fromHexChar p) as [a|] eqn:Hp; [|done].
    destruct (hex.fromHexChar q) as [b|] eqn:Hq; [|done].
    destruct (hex.DecodeString rest) as [bs'|]; [|done].
    intros _. repeat constructor; [by exists a|by exists b|by eapply IH].
Qed.

Lemma match_run_abort commits i run st :
  ¬ well_formed run → match_run commits i run st = Fatal (abort_cause run).
Proof.
  unfold well_formed, match_run, abort_cause.
  destruct (hex.DecodeString (Revision run)) as [runHash|err]; [|done].
  intros Hlen. by rewrite decide_True.
Qed.

Lemma match_run_Done commits i run st st' :
  match_run commits i run st = Done st' →
  well_formed run ∧ logged st' = logged st ++ [report_line commits run].
Proof.
  unfold well_formed, match_run, report_line.
  destruct (hex.DecodeString (Revision run)) as [runHash|err]; [|done].
  case_decide as Hlen; [done|]. cbv zeta.
  destruct (findHash commits runHash =? -1).
  - intros [= <-]. split; [lia|done].
  - destruct (index commits _); [|done]. case_decide; [|done].
    intros [= <-]. split; [lia|done].
Qed.

Lemma run_goroutines_log commits order : ∀ st st',
  run_goroutines commits order st = Done st' →
  logged st' = logged st ++ ((λ ir, report_line commits ir.2) <$> order).
Proof.
  induction order as [|[i run] order IH]; intros st st' Hrun; simpl in Hrun.
  { injection Hrun as <-. by rewrite app_nil_r. }
  destruct (match_run commits i run st) as [st1| |] eqn:Hstep; simpl in Hrun; try done.
  apply match_run_Done in Hstep as [_ Hlog].
  rewrite (IH _ _ Hrun), Hlog, <- app_assoc. done.
Qed.

Lemma run_goroutines_first_malformed commits pre i run post : ∀ st,
  Forall (λ ir, well_formed ir.2 ∧ (ir.1 < length (found st))%nat) pre →
  ¬ well_formed run →
  run_goroutines commits (pre ++ (i, run) :: post) st = Fatal (abort_cause run).
Proof.
  induction pre as [|[k r] pre IH]; intros st Hpre Hbad; simpl.
  { by rewrite match_run_abort. }
  apply Forall_cons in Hpre as [[Hr Hk] Hpre]. simpl in Hr, Hk.
  destruct (match_run_well_formed commits k r st Hr Hk) as [line ->]. simpl.
  apply IH; [|done]. simpl.
  eapply Forall_impl; [exact Hpre|]. intros ir [? ?]. split; [done|].
  destruct (resolve commits r); [by rewrite length_insert|done].
Qed.

(** X9: when the index is non-decreasing in the trailing five bytes and a
    record's revision decodes to the trailing bytes of a commit of the index,
    a run that returns has put into the record's slot a commit of the index
    with exactly those trailing bytes, in whatever order the goroutines ran. *)
Theorem getCommitForRuns_finds_suffix (sort_Sort : byHash → byHash) repo commits
    runs order i run C res :
  buildIndex sort_Sort repo = Done commits →
  Sorted suffix_le commits →
  schedule runs order →
  runs !! i = Some run →
  C ∈ commits →
  hex.DecodeString (Revision run) = inl (last5 (Hash C)) →
  getCommitForRuns sort_Sort (Some repo) runs order = Done res →
  ∃ c, found res !! i = Some (Some c) ∧ c ∈ commits ∧
       last5 (Hash c) = last5 (Hash C).
Proof.
  intros Hb Hsorted Hs Hi HC Hdec Hrun.
  rewrite (getCommitForRuns_Some _ _ _ _ _ Hb) in Hrun.
  pose proof (matching_Done_well_formed _ _ _ _ Hs Hrun) as Hwf.
  destruct (matching_well_formed commits runs order Hs Hwf)
    as (res' & Hrun' & _ & Hin & _).
  rewrite Hrun in Hrun'. injection Hrun' as <-.
  destruct (findHash_suffix_sorted commits C Hsorted HC) as (c & Hge & Hc & Hsuf).
  exists c. split; [|split; [|done]].
  - rewrite (Hin _ _ Hi). unfold resolve. rewrite Hdec. cbv zeta.
    rewrite (proj2 (Z.eqb_neq _ _)) by lia. by rewrite Hc.
  - rewrite index_nonneg in Hc by done. by eapply list_elem_of_lookup_2.
Qed.

Lemma getCommitForRuns_finds_witness :
  ∃ c, Some (Some commit_A) = Some (Some c) ∧ c ∈ [commit_A; commit_B] ∧
       last5 (Hash c) = last5 (Hash commit_A).
Proof.
  pose proof (getCommitForRuns_finds_suffix merge_sort_byHash
                (repo_of [commit_B; commit_A]) [commit_A; commit_B]
                [run_A; run_low] [(1%nat, run_low); (0%nat, run_A)]
                0%nat run_A commit_A
                {| found := [Some commit_A; None];
                   logged := ["Gathering commits"; "Sorting commits"; "Matching commits";
                              "Failed to find revision for 0000000001";
                              "Found commit for 0000000010"] |}
                eq_refl) as H.
  apply H.
  - by apply (bool_decide_unpack _).
  - apply schedule_swapped.
  - reflexivity.
  - by apply (bool_decide_unpack _).
  - reflexivity.
  - vm_compute. reflexivity.
Defined.

(** X10: building the index fails with the error of [repo.CommitObjects()]
    when that fails, and with the error the iterator ended on when that is not
    [io.EOF], whatever commits were gathered before; when the iterator ends on
    [io.EOF] the index is a rearrangement of the commits it handed out, of the
    same length. *)
Theorem buildIndex_outcomes (sort_Sort : byHash → byHash) (repo : Repository) :
  (∀ data, sort_Sort data ≡ₚ data) →
  (∀ err, CommitObjects repo = inr err →
     buildIndex sort_Sort repo = Fatal (log_Fatal err)) ∧
  (∀ iter, CommitObjects repo = inl iter → iter_end iter ≠ io_EOF →
     buildIndex sort_Sort repo = Fatal (log_Fatal (iter_end iter))) ∧
  (∀ iter, CommitObjects repo = inl iter → iter_end iter = io_EOF →
     ∃ commits, buildIndex sort_Sort repo = Done commits ∧
                commits ≡ₚ iter_pending iter ∧
                length commits = length (iter_pending iter)).
Proof.
  intros Hperm. unfold buildIndex, gatherCommits. split; [|split].
  - by intros err ->.
  - intros iter -> Hend. rewrite gather_app. simpl. by rewrite decide_False.
  - intros iter -> Hend. rewrite gather_app. simpl. rewrite decide_True by done.
    simpl. eexists. split; [done|]. split; [done|]. by rewrite Hperm.
Qed.

Lemma buildIndex_outcomes_witness :
  ∃ commits,
    buildIndex merge_sort_byHash (repo_of [commit_C; commit_A; commit_B]) = Done commits ∧
    commits ≡ₚ [commit_C; commit_A; commit_B] ∧
    length commits = 3%nat.
Proof.
  destruct (buildIndex_outcomes merge_sort_byHash
              (repo_of [commit_C; commit_A; commit_B]) merge_sort_byHash_permutes)
    as (_ & _ & Hok).
  by apply (Hok {| iter_pending := [commit_C; commit_A; commit_B]; iter_end := io_EOF |}).
Defined.

(** X11: a run that returns has logged its three phase lines and then one
    line per record, "Found commit for" or "Failed to find revision for" its
    revision, in the order in which the goroutines ran. *)
Theorem getCommitForRuns_log (sort_Sort : byHash → byHash) repo commits runs order res :
  buildIndex sort_Sort repo = Done commits →
  schedule runs order →
  getCommitForRuns sort_Sort (Some repo) runs order = Done res →
  logged res =
    ["Gathering commits"; "Sorting commits"; "Matching commits"] ++
    ((λ ir, report_line commits ir.2) <$> order) ∧
  length (logged res) = (3 + length runs)%nat ∧
  logged res ≡ₚ
    ["Gathering commits"; "Sorting commits"; "Matching commits"] ++
    (report_line commits <$> runs).
Proof.
  intros Hb Hs Hrun.
  rewrite (getCommitForRuns_Some _ _ _ _ _ Hb) in Hrun.
  apply run_goroutines_log in Hrun. simpl in Hrun.
  assert ((λ ir : nat * TestRun, report_line commits ir.2) <$> order
            ≡ₚ report_line commits <$> runs) as Hp.
  { unfold schedule in Hs. rewrite Hs. unfold spawned.
    assert (∀ A (l1 l2 : list A), l1 = l2 → l1 ≡ₚ l2) as Heq by (by intros A l1 l2 ->).
    apply Heq, list_eq. intros k.
    rewrite !list_lookup_fmap, list_lookup_imap. by destruct (runs !! k). }
  split; [done|]. rewrite Hrun. simpl. split.
  - by rewrite Hp, length_fmap.
  - by rewrite Hp.
Qed.

Lemma getCommitForRuns_log_witness :
  logged {| found := [Some commit_A; None];
            logged := ["Gathering commits"; "Sorting commits"; "Matching commits";
                       "Failed to find revision for 0000000001";
                       "Found commit for 0000000010"] |} =
    ["Gathering commits"; "Sorting commits"; "Matching commits"] ++
    ((λ ir, report_line [commit_A; commit_B] ir.2) <$>
       [(1%nat, run_low); (0%nat, run_A)]).
Proof.
  apply (getCommitForRuns_log merge_sort_byHash (repo_of [commit_B; commit_A])
           [commit_A; commit_B] [run_A; run_low] [(1%nat, run_low); (0%nat, run_A)]).
  - reflexivity.
  - apply schedule_swapped.
  - vm_compute. reflexivity.
Defined.

(** X12: the run ends with the abort of the first record, in the order in
    which the goroutines run, whose revision does not decode to five bytes:
    the decoding error, or the length found. *)
Theorem getCommitForRuns_first_malformed (sort_Sort : byHash → byHash) repo commits
    runs pre i run post :
  buildIndex sort_Sort repo = Done commits →
  schedule runs (pre ++ (i, run) :: post) →
  Forall (λ ir, well_formed ir.2) pre →
  ¬ well_formed run →
  getCommitForRuns sort_Sort (Some repo) runs (pre ++ (i, run) :: post) =
    Fatal (abort_cause run).
Proof.
  intros Hb Hs Hpre Hbad.
  rewrite (getCommitForRuns_Some _ _ _ _ _ Hb).
  apply run_goroutines_first_malformed; [|done].
  simpl. rewrite length_replicate.
  pose proof (schedule_in_range _ _ Hs) as Hrange.
  apply Forall_app in Hrange as [Hrange _].
  rewrite Forall_forall in Hpre, Hrange. apply Forall_forall.
  intros ir Hir. split; [by apply Hpre | by apply Hrange].
Qed.

Lemma getCommitForRuns_first_malformed_witness :
  getCommitForRuns merge_sort_byHash (Some (repo_of [commit_B; commit_A]))
      [run_short; run_A; {| Revision := "zz" |}]
      ([(1%nat, run_A)] ++ (0%nat, run_short) :: [(2%nat, {| Revision := "zz" |})]) =
    Fatal (log_Fatalf_hash_length 4).
Proof.
  apply (getCommitForRuns_first_malformed merge_sort_byHash
           (repo_of [commit_B; commit_A]) [commit_A; commit_B]
           [run_short; run_A; {| Revision := "zz" |}]
           [(1%nat, run_A)] 0%nat run_short [(2%nat, {| Revision := "zz" |})]).
  - reflexivity.
  - unfold schedule, spawned. simpl. apply perm_swap.
  - by repeat constructor.
  - by apply (bool_decide_unpack _).
Defined.

(** X13: a goroutine returns, rather than ending the process, exactly for
    the revisions of ten hexadecimal digits, in either case of the letters. *)
Theorem match_run_accepts (commits : list Commit) (i : nat) (run : TestRun)
    (st : matching) :
  (i < length (found st))%nat →
  (∃ st', match_run commits i run st = Done st') ↔
  String.length (Revision run) = 10%nat ∧
  Forall hex.is_hex (String.list_ascii_of_string (Revision run)).
Proof.
  intros Hi. split.
  - intros [st' Hrun]. apply match_run_Done in Hrun as [Hwf _].
    unfold well_formed in Hwf.
    destruct (hex.DecodeString (Revision run)) as [runHash|] eqn:Hdec; [|done].
    split.
    + rewrite (DecodeString_length _ _ Hdec). lia.
    + by eapply DecodeString_is_hex.
  - intros [Hlen Hhex].
    destruct (DecodeString_hex (Revision run) 5 Hlen Hhex) as (runHash & Hdec & H5).
    destruct (match_run_well_formed commits i run st) as [line Hrun]; [|done|by eauto].
    unfold well_formed. by rewrite Hdec.
Qed.

Lemma match_run_accepts_witness :
  ∃ st', match_run [commit_A; commit_B] 0 {| Revision := "00000000Ff" |}
           (start [run_A]) = Done st'.
Proof.
  apply (match_run_accepts [commit_A; commit_B] 0 {| Revision := "00000000Ff" |}
           (start [run_A])).
  - simpl. lia.
  - split; [reflexivity|]. repeat constructor; by eexists.
Defined.

(** *** [getRuns] *)

Lemma collect_app pending final testRuns :
  collect pending final testRuns =
    match final with
    | iterator_Done => Done (testRuns ++ pending)
    | next_failed err => Fatal (log_Fatal err)
    end.
Proof.
  revert testRuns. induction pending as [|r pending IH]; intros testRuns; simpl.
  - rewrite app_nil_r. by destruct final.
  - rewrite IH, <- app_assoc. done.
Qed.

(** X14: [getRuns] returns the test runs in the order the query yields
    them when the iterator ends on [iterator.Done]; any other error of the
    iterator is fatal, whatever runs were read before it; and it never
    panics. *)
Theorem getRuns_outcomes (client : datastore_Client) :
  (it_end (client_Run client) = iterator_Done →
     getRuns client = Done (it_pending (client_Run client))) ∧
  (∀ err, it_end (client_Run client) = next_failed err →
     getRuns client = Fatal (log_Fatal err)) ∧
  (∀ runs, getRuns client = Done runs →
     it_end (client_Run client) = iterator_Done ∧
     runs = it_pending (client_Run client)) ∧
  (∀ p, getRuns client ≠ Panic p).
Proof.
  unfold getRuns. cbv zeta. rewrite collect_app.
  destruct (it_end (client_Run client)) as [|err]; simpl.
  - split; [done|]. split; [done|]. split; [|done]. by intros runs [= <-].
  - split; [done|]. split; [by intros ? [= <-]|]. done.
Qed.

(** *** [main] *)

(** Once the set-up calls have succeeded and the runs are fetched, the whole
    of [main] is its last step, with the two lines of [main] ahead in the
    log. *)
Lemma main_all_main sort_Sort p g wptGitPath wptDataPath runs_first sched client runs :
  os_MkdirAll p = None →
  datastore_NewClient p = inl client →
  getRuns client = Done runs →
  filesystem_NewStorage p = None →
  main_all sort_Sort p g wptGitPath wptDataPath runs_first sched =
    (res ← main sort_Sort g wptGitPath runs (sched runs);
     Done {| found := found res;
             logged :=
               ["Loading and storing WPT checkout in " +:+ wptGitPath;
                "Caching WPT data in " +:+ wptDataPath] ++ logged res |}).
Proof.
  intros Hmk Hclient Hruns Hstore. unfold main_all, main, join.
  rewrite Hmk, Hclient, Hruns, Hstore. cbv zeta.
  destruct (getGit g (wptGitPath +:+ "/.git") wptGitPath _).2 as [repo|f|q];
    by destruct runs_first.
Qed.

(** X15: [main] returns only when every step before the matching
    succeeded: the data directory was made, the datastore client and the
    storage created, the runs fetched to the end, and [getGit] returned a
    repository; what it returns is then what [getCommitForRuns] returns for
    that repository and those runs. *)
Theorem main_all_Done (sort_Sort : byHash → byHash) p g wptGitPath wptDataPath
    runs_first sched res :
  main_all sort_Sort p g wptGitPath wptDataPath runs_first sched = Done res →
  os_MkdirAll p = None ∧
  filesystem_NewStorage p = None ∧
  ∃ client repo res',
    datastore_NewClient p = inl client ∧
    it_end (client_Run client) = iterator_Done ∧
    (getGit g (wptGitPath +:+ "/.git") wptGitPath
       {| URL := "https://github.com/w3c/web-platform-tests.git" |}).2
      = Done (Some repo) ∧
    getCommitForRuns sort_Sort (Some repo) (it_pending (client_Run client))
      (sched (it_pending (client_Run client))) = Done res' ∧
    found res = found res'.
Proof.
  unfold main_all.
  destruct (os_MkdirAll p) as [err|] eqn:Hmk; [done|].
  destruct (datastore_NewClient p) as [client|err] eqn:Hclient; [|done].
  unfold getRuns, join. cbv zeta. rewrite collect_app.
  destruct (it_end (client_Run client)) as [|err] eqn:Hend.
  2: { destruct runs_first; simpl; [done|].
       destruct (filesystem_NewStorage p); [done|].
       by destruct (getGit _ _ _ _).2. }
  destruct (filesystem_NewStorage p) as [err|] eqn:Hstore.
  { by destruct runs_first. }
  destruct (getGit g (wptGitPath +:+ "/.git") wptGitPath _).2 as [[repo|]|f|q] eqn:Hgit.
  - intros Hres. split; [done|]. split; [done|].
    assert (∃ res', getCommitForRuns sort_Sort (Some repo)
                      (it_pending (client_Run client))
                      (sched (it_pending (client_Run client))) = Done res' ∧
                    found res = found res') as (res' & Hrun & Hfound).
    { destruct runs_first; cbn -[getCommitForRuns] in Hres;
        destruct (getCommitForRuns sort_Sort (Some repo) _ _) as [res'| |];
        cbn in Hres; try done; injection Hres as <-; by exists res'. }
    by exists client, repo, res'.
  - by destruct runs_first.
  - by destruct runs_first.
  - by destruct runs_first.
Qed.

Lemma last_first_schedule runs : schedule runs (last_first runs).
Proof. unfold schedule, last_first. apply reverse_Permutation. Qed.

Lemma main_all_Done_witness :
  os_MkdirAll (process_of [run_A; run_low]) = None ∧
  filesystem_NewStorage (process_of [run_A; run_low]) = None ∧
  ∃ client repo res',
    datastore_NewClient (process_of [run_A; run_low]) = inl client ∧
    it_end (client_Run client) = iterator_Done ∧
    (getGit (mirror_host (repo_of [commit_B; commit_A]) None)
       (".wpt" +:+ "/.git") ".wpt"
       {| URL := "https://github.com/w3c/web-platform-tests.git" |}).2
      = Done (Some repo) ∧
    getCommitForRuns merge_sort_byHash (Some repo) (it_pending (client_Run client))
      (last_first (it_pending (client_Run client))) = Done res' ∧
    [Some commit_A; None] = found res'.
Proof.
  apply (main_all_Done merge_sort_byHash (process_of [run_A; run_low])
           (mirror_host (repo_of [commit_B; commit_A]) None)
           ".wpt" ".cache/migration" true last_first
           {| found := [Some commit_A; None];
              logged := ["Loading and storing WPT checkout in .wpt";
                         "Caching WPT data in .cache/migration";
                         "Gathering commits"; "Sorting commits"; "Matching commits";
                         "Failed to find revision for 0000000001";
                         "Found commit for 0000000010"] |}).
  vm_compute. reflexivity.
Defined.

(** X16: when every set-up call succeeds, the query ends on
    [iterator.Done], [getGit] returns a repository whose index can be built
    and every revision decodes to five bytes, [main] returns with one slot per
    test run, slot [i] holding the outcome of the [i]-th run the query
    yielded, whichever of the two set-up goroutines ends first and in
    whatever order the matching goroutines run. *)
Theorem main_all_slots (sort_Sort : byHash → byHash) p g wptGitPath wptDataPath
    runs_first sched client repo commits :
  os_MkdirAll p = None →
  datastore_NewClient p = inl client →
  it_end (client_Run client) = iterator_Done →
  filesystem_NewStorage p = None →
  (getGit g (wptGitPath +:+ "/.git") wptGitPath
     {| URL := "https://github.com/w3c/web-platform-tests.git" |}).2
    = Done (Some repo) →
  buildIndex sort_Sort repo = Done commits →
  schedule (it_pending (client_Run client)) (sched (it_pending (client_Run client))) →
  Forall well_formed (it_pending (client_Run client)) →
  ∃ res,
    main_all sort_Sort p g wptGitPath wptDataPath runs_first sched = Done res ∧
    length (found res) = length (it_pending (client_Run client)) ∧
    ∀ i run, it_pending (client_Run client) !! i = Some run →
             found res !! i = Some (resolve commits run).
Proof.
  intros Hmk Hclient Hend Hstore Hgit Hb Hs Hwf.
  assert (getRuns client = Done (it_pending (client_Run client))) as Hruns.
  { unfold getRuns. cbv zeta. by rewrite collect_app, Hend. }
  rewrite (main_all_main _ _ _ _ _ _ _ _ _ Hmk Hclient Hruns Hstore).
  unfold main. cbv zeta. rewrite Hgit. cbn -[getCommitForRuns].
  rewrite (getCommitForRuns_Some _ _ _ _ _ Hb).
  destruct (matching_well_formed commits _ _ Hs Hwf) as (res & -> & Hlen & Hin & _).
  eexists. split; [done|]. done.
Qed.

Lemma main_all_slots_witness :
  ∃ res,
    main_all merge_sort_byHash (process_of [run_A; run_low])
      (mirror_host (repo_of [commit_B; commit_A]) (Some git_NoErrAlreadyUpToDate))
      ".wpt" ".cache/migration" false last_first = Done res ∧
    length (found res) = 2%nat ∧
    ∀ i run, [run_A; run_low] !! i = Some run →
             found res !! i = Some (resolve [commit_A; commit_B] run).
Proof.
  apply (main_all_slots merge_sort_byHash (process_of [run_A; run_low])
           (mirror_host (repo_of [commit_B; commit_A]) (Some git_NoErrAlreadyUpToDate))
           ".wpt" ".cache/migration" false last_first
           {| client_Run := {| it_pending := [run_A; run_low];
                               it_end := iterator_Done |} |}
           (repo_of [commit_B; commit_A]) [commit_A; commit_B]);
    try reflexivity.
  - apply last_first_schedule.
  - repeat constructor.
Defined.

(** X17: a goroutine that returns has changed no slot but its own and not
    the number of slots; its own slot is as it was or holds a commit of the
    index. *)
Theorem match_run_own_slot (commits : list Commit) (i : nat) (run : TestRun)
    (st st' : matching) :
  match_run commits i run st = Done st' →
  length (found st') = length (found st) ∧
  (∀ j, j ≠ i → found st' !! j = found st !! j) ∧
  (found st' !! i = found st !! i ∨
   ∃ c, c ∈ commits ∧ found st' !! i = Some (Some c)).
Proof.
  unfold match_run.
  destruct (hex.DecodeString (Revision run)) as [runHash|err]; [|done].
  case_decide as Hlen; [done|]. cbv zeta.
  destruct (Z.eqb_spec (findHash commits runHash) (-1)) as [E|E].
  { intros [= <-]. simpl. auto. }
  destruct (index_findHash commits runHash E) as (c & -> & Hc).
  case_decide as Hi; [|done]. intros [= <-]. simpl.
  split; [by rewrite length_insert|]. split.
  - intros j Hj. by rewrite list_lookup_insert_ne.
  - right. exists c. split; [done|]. by rewrite list_lookup_insert_eq.
Qed.

Lemma match_run_own_slot_witness :
  length (<[0%nat := Some commit_A]> [None; Some commit_B]) = 2%nat ∧
  <[0%nat := Some commit_A]> [None; Some commit_B] !! 1%nat = Some (Some commit_B).
Proof.
  destruct (match_run_own_slot [commit_A; commit_B] 0 run_A
              {| found := [None; Some commit_B]; logged := [] |}
              {| found := <[0%nat := Some commit_A]> [None; Some commit_B];
                 logged := ["Found commit for 0000000010"] |})
    as (Hlen & Hother & _).
  - vm_compute. reflexivity.
  - split; [exact Hlen|]. by apply (Hother 1%nat).
Defined.
